(** * A shallow embedding of the query engine of lets-build-a-database

    The crate [core] parses SQL into a logical plan, rewrites it into a
    physical plan (recognising index scans) and executes the physical plan
    over in-memory rows, counting processed rows.  This file embeds the
    executor and planner of [src/crates/core/src] and proves the properties
    of the natural-language specification about them.

    Conventions of the embedding:
    - [serde_json::Value] is the inductive [Value]; a JSON number keeps the
      three representations of [serde_json::Number] ([PosInt] for u64,
      [NegInt] for negative i64, [Float] for an f64 given by its IEEE-754
      bit pattern).
    - A Rust [Result] that may also panic is an [Outcome]: [Ok], [Err] or
      [Panicked] (with the panic message: [unwrap] on [None], [todo!],
      [panic!], i64 overflow with debug assertions on).
    - The [Cost] counter that the code threads through [&mut Cost] is a
      [nat] passed in and returned explicitly.
    - The hash of [hash_join] and [construct_index] is a parameter of the
      general results, which hold for any [Value -> u64]; [calculate_hash]
      embeds the program's own ([DefaultHasher], SipHash-1-3 with zero keys,
      over the bytes of serde_json's [Hash]) for the concrete examples.
    - [slice::sort_by] is embedded only as what it runs on at most 20
      elements (an insertion sort); above that the standard library runs
      driftsort, which is not embedded. *)

From Stdlib Require Import ZArith String List Permutation Sorted Lia.
From stdpp Require Import base gmap strings list.

Set Warnings "-register-all".
Open Scope Z_scope.

(* ------------------------------------------------------------------ *)
(** ** Results that may fail or panic *)

Inductive Outcome (E A : Type) : Type :=
  | Ok (a : A)
  | Err (e : E)
  | Panicked (msg : string).
Arguments Ok {E A} a.
Arguments Err {E A} e.
Arguments Panicked {E A} msg.

#[global] Instance outcome_ret E : MRet (Outcome E) := fun A a => Ok a.
#[global] Instance outcome_bind E : MBind (Outcome E) :=
  fun A B f m =>
    match m with
    | Ok a => f a
    | Err e => Err e
    | Panicked s => Panicked s
    end.

(** [Result::map_err]; a panic is not an error and passes through. *)
Definition map_err {E F A} (f : E -> F) (m : Outcome E A) : Outcome F A :=
  match m with
  | Ok a => Ok a
  | Err e => Err (f e)
  | Panicked s => Panicked s
  end.

(** [Option::ok_or_else(...)?]. *)
Definition ok_or {E A} (o : option A) (e : E) : Outcome E A :=
  match o with Some a => Ok a | None => Err e end.

(** [Option::unwrap]. *)
Definition unwrap {E A} (o : option A) : Outcome E A :=
  match o with
  | Some a => Ok a
  | None => Panicked "called `Option::unwrap()` on a `None` value"
  end.

(* ------------------------------------------------------------------ *)
(** ** Values ([serde_json::Value]) *)

Definition i64_min : Z := - 2 ^ 63.
Definition i64_max : Z := 2 ^ 63 - 1.

Inductive Number : Type :=
  | PosInt (u : Z)   (* u64, always >= 0 *)
  | NegInt (i : Z)   (* i64, always < 0 *)
  | Float (bits : Z). (* an f64 by its bit pattern; never NaN nor infinite *)

Inductive Value : Type :=
  | VNull
  | VBool (b : bool)
  | VNumber (n : Number)
  | VString (s : string)
  | VArray (vs : list Value)
  | VObject (kvs : list (string * Value)).  (* a BTreeMap: keys in order *)

(** [impl From<i64> for Number]: non-negative values are [PosInt]. *)
Definition number_of_i64 (i : Z) : Number :=
  if i <? 0 then NegInt i else PosInt i.

(** [Value::as_i64] (through [Number::as_i64]). *)
Definition as_i64 (v : Value) : option Z :=
  match v with
  | VNumber (PosInt u) => if u <=? i64_max then Some u else None
  | VNumber (NegInt i) => Some i
  | _ => None
  end.

(** [f64 ==] on non-NaN values: equal bits, or both zeros (0.0 = -0.0). *)
Definition f64_is_zero (bits : Z) : bool := Z.land bits (2 ^ 63 - 1) =? 0.
Definition f64_eq (a b : Z) : bool := (a =? b) || (f64_is_zero a && f64_is_zero b).

(** [impl PartialEq for N]. *)
Definition number_eqb (a b : Number) : bool :=
  match a, b with
  | PosInt x, PosInt y => x =? y
  | NegInt x, NegInt y => x =? y
  | Float x, Float y => f64_eq x y
  | _, _ => false
  end.

(** The derived [PartialEq] of [serde_json::Value]. *)
Fixpoint value_eqb (a b : Value) : bool :=
  match a, b with
  | VNull, VNull => true
  | VBool x, VBool y => Bool.eqb x y
  | VNumber x, VNumber y => number_eqb x y
  | VString x, VString y => String.eqb x y
  | VArray xs, VArray ys =>
      (fix go (xs ys : list Value) : bool :=
         match xs, ys with
         | [], [] => true
         | x :: xs', y :: ys' => value_eqb x y && go xs' ys'
         | _, _ => false
         end) xs ys
  | VObject xs, VObject ys =>
      (fix go (xs ys : list (string * Value)) : bool :=
         match xs, ys with
         | [], [] => true
         | (k, x) :: xs', (l, y) :: ys' =>
             String.eqb k l && value_eqb x y && go xs' ys'
         | _, _ => false
         end) xs ys
  | _, _ => false
  end.

(* ------------------------------------------------------------------ *)
(** ** Columns, schemas and rows ([types.rs]) *)

Record Column : Type := mkColumn {
  name : string;
  table_alias : option string;
}.

#[global] Instance Column_eq_dec : EqDecision Column.
Proof. solve_decision. Defined.

Inductive SchemaColumn : Type :=
  | SColumn (column : Column)
  | SNamed (named : string).

Record Schema : Type := mkSchema { columns : list SchemaColumn }.

Record Row : Type := mkRow { items : list Value }.

(** [Schema::get_index_for_column]: the first [SchemaColumn::Column]
    entry equal to [column]. *)
Fixpoint index_for_column_from (i : nat) (cols : list SchemaColumn) (column : Column)
    : option nat :=
  match cols with
  | [] => None
  | SColumn c :: rest =>
      if decide (c = column) then Some i else index_for_column_from (S i) rest column
  | SNamed _ :: rest => index_for_column_from (S i) rest column
  end.

Definition get_index_for_column (schema : Schema) (column : Column) : option nat :=
  index_for_column_from 0 (columns schema) column.

(** [Row::get_column]. *)
Definition get_column (row : Row) (column : Column) (schema : Schema) : option Value :=
  match get_index_for_column schema column with
  | Some i => items row !! i
  | None => None
  end.

(** [Row::extend] and [Schema::extend]. *)
Definition row_extend (row other : Row) : Row := mkRow (items row ++ items other).
Definition schema_extend (s other : Schema) : Schema := mkSchema (columns s ++ columns other).

(* ------------------------------------------------------------------ *)
(** ** Expressions and errors *)

Inductive Op : Type :=
  | Equals | GreaterThan | GreaterThanOrEqual | LessThan | LessThanOrEqual
  | Add | Subtract.

Inductive AggregateFunctionName : Type := Sum.

Inductive FunctionName : Type := Aggregate (agg : AggregateFunctionName).

(** [types::Expr] (constructors prefixed with [E]). *)
Inductive Expr : Type :=
  | EColumn (column : Column)
  | ELiteral (literal : Value)
  | EBinaryOperation (left : Expr) (op : Op) (right : Expr)
  | ENested (expr : Expr)
  | EFunctionCall (function_name : FunctionName) (args : list Expr).

(** [filter::FilterError]. *)
Inductive FilterError : Type :=
  | ExpectedInt (value : Value)
  | ExpectedBooleanType (value : Value).

(** [query::QueryError], with the variants [filter.rs] uses. *)
Inductive QueryError : Type :=
  | ColumnNotFoundInSchema (column_name : Column)
  | IndexNotFoundInSchema (index : nat)
  | QFilterError (e : FilterError)
  | ArgumentNotFound
  | TypeMismatch (expected : string).

(** i64 [+] and [-] with overflow checks (the debug profile: an overflow
    panics; a release build would wrap instead). *)
Definition i64_checked {E} (msg : string) (r : Z) : Outcome E Z :=
  if (i64_min <=? r) && (r <=? i64_max) then Ok r else Panicked msg.

Definition i64_add {E} (a b : Z) : Outcome E Z :=
  i64_checked "attempt to add with overflow" (a + b).
Definition i64_sub {E} (a b : Z) : Outcome E Z :=
  i64_checked "attempt to subtract with overflow" (a - b).

(** [filter::as_int]. *)
Definition as_int (value : Value) : Outcome FilterError Z :=
  match as_i64 value with
  | Some i => Ok i
  | None => Err (ExpectedInt value)
  end.

(** [filter::match_op]. *)
Definition match_op (value : Value) (op : Op) (literal : Value)
    : Outcome FilterError Value :=
  match op with
  | Equals => Ok (VBool (value_eqb value literal))
  | GreaterThan =>
      left_int ← as_int value; right_int ← as_int literal; Ok (VBool (right_int <? left_int))
  | GreaterThanOrEqual =>
      left_int ← as_int value; right_int ← as_int literal; Ok (VBool (right_int <=? left_int))
  | LessThan =>
      left_int ← as_int value; right_int ← as_int literal; Ok (VBool (left_int <? right_int))
  | LessThanOrEqual =>
      left_int ← as_int value; right_int ← as_int literal; Ok (VBool (left_int <=? right_int))
  | Add =>
      left_int ← as_int value; right_int ← as_int literal;
      r ← i64_add left_int right_int; Ok (VNumber (number_of_i64 r))
  | Subtract =>
      left_int ← as_int value; right_int ← as_int literal;
      r ← i64_sub left_int right_int; Ok (VNumber (number_of_i64 r))
  end.

(** [filter::evaluate_expr]: row-local evaluation; a function call reaches
    [todo!("function call in evaluate_expr")]. *)
Fixpoint evaluate_expr (row : Row) (schema : Schema) (expr : Expr)
    : Outcome QueryError Value :=
  match expr with
  | EBinaryOperation lhs op rhs =>
      l ← evaluate_expr row schema lhs;
      r ← evaluate_expr row schema rhs;
      map_err QFilterError (match_op l op r)
  | EColumn column => ok_or (get_column row column schema) (ColumnNotFoundInSchema column)
  | ELiteral literal => Ok literal
  | ENested e => evaluate_expr row schema e
  | EFunctionCall _ _ => Panicked "not yet implemented: function call in evaluate_expr"
  end.

(** [filter::apply_predicate]. *)
Definition apply_predicate (row : Row) (schema : Schema) (where_expr : Expr)
    : Outcome QueryError bool :=
  v ← evaluate_expr row schema where_expr;
  match v with
  | VBool b => Ok b
  | other => Err (QFilterError (ExpectedBooleanType other))
  end.

(** The [try_fold] of [evaluate_function_call] for [sum]. *)
Fixpoint sum_rows (schema : Schema) (expr : Expr) (total : Z) (all_rows : list Row)
    : Outcome QueryError Z :=
  match all_rows with
  | [] => Ok total
  | all_row :: rest =>
      value ← evaluate_expr all_row schema expr;
      match value with
      | VNumber _ =>
          match as_i64 value with
          | Some a => t ← i64_add total a; sum_rows schema expr t rest
          | None => Err (TypeMismatch "i64")
          end
      | _ => Err (TypeMismatch "i64")
      end
  end.

(** [filter::evaluate_function_call]. *)
Definition evaluate_function_call (function_name : FunctionName) (args : list Expr)
    (all_rows : list Row) (schema : Schema) : Outcome QueryError Value :=
  match function_name with
  | Aggregate Sum =>
      expr ← ok_or (head args) ArgumentNotFound;
      sum ← sum_rows schema expr 0 all_rows;
      Ok (VNumber (number_of_i64 sum))
  end.

(** [filter::evaluate_aggregate_expr]. *)
Fixpoint evaluate_aggregate_expr (all_rows : list Row) (schema : Schema) (expr : Expr)
    : Outcome QueryError Value :=
  match expr with
  | EBinaryOperation lhs op rhs =>
      l ← evaluate_aggregate_expr all_rows schema lhs;
      r ← evaluate_aggregate_expr all_rows schema rhs;
      map_err QFilterError (match_op l op r)
  | EColumn _ => Panicked "column in evaluate_aggregate_expr"
  | ELiteral literal => Ok literal
  | ENested e => evaluate_aggregate_expr all_rows schema e
  | EFunctionCall function_name args =>
      evaluate_function_call function_name args all_rows schema
  end.

(** [project::is_aggregate_expr]. *)
Fixpoint is_aggregate_expr (expr : Expr) : bool :=
  match expr with
  | EColumn _ => false
  | ELiteral _ => false
  | EBinaryOperation lhs _ rhs => is_aggregate_expr lhs || is_aggregate_expr rhs
  | ENested e => is_aggregate_expr e
  | EFunctionCall function_name args =>
      let is_aggregate_function := match function_name with Aggregate _ => true end in
      is_aggregate_function || existsb is_aggregate_expr args
  end.

(* ------------------------------------------------------------------ *)
(** ** Operators over rows *)

Record QueryStep : Type := mkQueryStep {
  qs_schema : Schema;
  qs_rows : list Row;
  qs_cost : nat;   (* [Cost::rows_processed] *)
}.

Inductive JoinType : Type := Inner | LeftOuter.

Record JoinOn : Type := mkJoinOn { on_left : Column; on_right : Column }.

Section Display.

(** [format!("{literal}")]: serde_json's [Display] of a value (its JSON
    text), used only to name projected literals. *)
Variable display_value : Value -> string.

(** *** [project.rs] *)

Definition op_display (op : Op) : string :=
  match op with
  | Equals => "equals"
  | GreaterThan => "greater_than"
  | GreaterThanOrEqual => "greater_than_or_equal"
  | LessThan => "less_than"
  | LessThanOrEqual => "less_than_or_equal"
  | Add => "add"
  | Subtract => "subtract"
  end.

Definition function_name_display (f : FunctionName) : string :=
  match f with Aggregate Sum => "sum" end.

(** [project::index_for_expr]. *)
Fixpoint index_for_expr (field : Expr) (schema : Schema) : Outcome QueryError SchemaColumn :=
  match field with
  | EColumn column =>
      index ← ok_or (get_index_for_column schema column) (ColumnNotFoundInSchema column);
      ok_or (columns schema !! index) (IndexNotFoundInSchema index)
  | ELiteral literal => Ok (SNamed (display_value literal))
  | EBinaryOperation _ op _ => Ok (SNamed (op_display op))
  | ENested e => index_for_expr e schema
  | EFunctionCall function_name _ => Ok (SNamed (function_name_display function_name))
  end.

(** [project::project_schema]. *)
Definition project_schema (schema : Schema) (fields : list Expr) : Outcome QueryError Schema :=
  cols ← mapM (fun field => index_for_expr field schema) fields;
  Ok (mkSchema cols).

End Display.

(** The first loop of [project::project_fields]: the [BTreeMap] from field
    index to the aggregate's value, filled in index order. *)
Fixpoint collect_aggregates (rows : list Row) (schema : Schema) (index : nat)
    (fields : list Expr) (aggregate_results : gmap nat Value)
    : Outcome QueryError (gmap nat Value) :=
  match fields with
  | [] => Ok aggregate_results
  | field :: rest =>
      if is_aggregate_expr field then
        v ← evaluate_aggregate_expr rows schema field;
        collect_aggregates rows schema (S index) rest (<[index := v]> aggregate_results)
      else collect_aggregates rows schema (S index) rest aggregate_results
  end.

(** The loop of [project::project_field_row]. *)
Fixpoint project_items (row : Row) (schema : Schema) (index : nat) (fields : list Expr)
    (aggregate_results : gmap nat Value) : Outcome QueryError (list Value) :=
  match fields with
  | [] => Ok []
  | field :: rest =>
      value ← match aggregate_results !! index with
              | Some agg_value => Ok agg_value
              | None => evaluate_expr row schema field
              end;
      values ← project_items row schema (S index) rest aggregate_results;
      Ok (value :: values)
  end.

(** [project::project_field_row]. *)
Definition project_field_row (row : Row) (schema : Schema) (fields : list Expr)
    (aggregate_results : gmap nat Value) : Outcome QueryError Row :=
  its ← project_items row schema 0 fields aggregate_results; Ok (mkRow its).

(** The per-row loop of [project::project_fields]: one cost tick per row. *)
Fixpoint project_rows (rows : list Row) (schema : Schema) (fields : list Expr)
    (aggregate_results : gmap nat Value) (cost : nat)
    : Outcome QueryError (list Row * nat) :=
  match rows with
  | [] => Ok ([], cost)
  | row :: rest =>
      let cost := S cost in
      projected ← project_field_row row schema fields aggregate_results;
      '(projected_rows, cost) ← project_rows rest schema fields aggregate_results cost;
      Ok (projected :: projected_rows, cost)
  end.

(** The one row of totals of an aggregate-only projection. *)
Fixpoint aggregate_items (aggregate_results : gmap nat Value) (index : nat) (fields : list Expr)
    : Outcome QueryError (list Value) :=
  match fields with
  | [] => Ok []
  | _ :: rest =>
      value ← unwrap (aggregate_results !! index);
      values ← aggregate_items aggregate_results (S index) rest;
      Ok (value :: values)
  end.

(** [project::project_fields]. *)
Definition project_fields (rows : list Row) (schema : Schema) (fields : list Expr) (cost : nat)
    : Outcome QueryError (list Row * nat) :=
  aggregate_results ← collect_aggregates rows schema 0 fields ∅;
  if decide (size aggregate_results = length fields) then
    its ← aggregate_items aggregate_results 0 fields;
    Ok ([mkRow its], cost)
  else project_rows rows schema fields aggregate_results cost.

(** *** [join.rs] *)

Section Join.

Variable calculate_hash : Value -> Z.
Variables (left_schema right_schema : Schema) (on : JoinOn) (join_type : JoinType).

Definition left_key (left_row : Row) : Outcome QueryError Value :=
  ok_or (get_column left_row (on_left on) left_schema) (ColumnNotFoundInSchema (on_left on)).

Definition right_key (right_row : Row) : Outcome QueryError Value :=
  ok_or (get_column right_row (on_right on) right_schema) (ColumnNotFoundInSchema (on_right on)).

(** Build phase: one empty bucket per left hash. *)
Fixpoint join_build (left_rows : list Row) (stuff : gmap Z (list Row)) (cost : nat)
    : Outcome QueryError (gmap Z (list Row) * nat) :=
  match left_rows with
  | [] => Ok (stuff, cost)
  | left_row :: rest =>
      let cost := S cost in
      value ← left_key left_row;
      join_build rest (<[calculate_hash value := []]> stuff) cost
  end.

(** Probe phase: a right row is appended to the bucket of its hash, if any. *)
Fixpoint join_probe (right_rows : list Row) (stuff : gmap Z (list Row)) (cost : nat)
    : Outcome QueryError (gmap Z (list Row) * nat) :=
  match right_rows with
  | [] => Ok (stuff, cost)
  | right_row :: rest =>
      let cost := S cost in
      value ← right_key right_row;
      let h := calculate_hash value in
      let stuff := match stuff !! h with
                   | Some its => <[h := its ++ [right_row]]> stuff
                   | None => stuff
                   end in
      join_probe rest stuff cost
  end.

(** The rows emitted for one left row, given its bucket. *)
Definition emit_for (left_row : Row) (bucket : option (list Row)) : list Row :=
  match bucket with
  | Some [] =>
      match join_type with
      | LeftOuter => [mkRow (items left_row ++ map (fun _ => VNull) (columns right_schema))]
      | Inner => []
      end
  | Some rhs => map (fun item => row_extend left_row item) rhs
  | None => []
  end.

(** Emit phase. *)
Fixpoint join_emit (left_rows : list Row) (stuff : gmap Z (list Row)) (cost : nat)
    : Outcome QueryError (list Row * nat) :=
  match left_rows with
  | [] => Ok ([], cost)
  | left_row :: rest =>
      let cost := S cost in
      value ← left_key left_row;
      let out := emit_for left_row (stuff !! calculate_hash value) in
      '(output_rows, cost) ← join_emit rest stuff cost;
      Ok (out ++ output_rows, cost)
  end.

(** [join::hash_join]. *)
Definition hash_join (left_rows right_rows : list Row) (cost : nat)
    : Outcome QueryError QueryStep :=
  '(stuff, cost) ← join_build left_rows ∅ cost;
  '(stuff, cost) ← join_probe right_rows stuff cost;
  '(output_rows, cost) ← join_emit left_rows stuff cost;
  Ok (mkQueryStep (schema_extend left_schema right_schema) output_rows cost).

End Join.

(** *** [from.rs]: table scans *)

Record Index : Type := mkIndex {
  index_table_name : string;
  index_columns : list string;
}.

Record Table : Type := mkTable {
  table_columns : list string;
  table_indexes : list Index;
}.

(** [catalog::Catalog]: its [BTreeMap] of tables. *)
Abbreviation Catalog := (gmap string Table).

(** [from::schema]: the declared columns; [unwrap] on an unknown table. *)
Definition from_schema (table_name : string) (catalog : Catalog)
    : Outcome QueryError (list string) :=
  table ← unwrap (catalog !! table_name); Ok (table_columns table).

Definition vint (i : Z) : Value := VNumber (number_of_i64 i).

(** The rows of [json!({"animal_id": id, "animal_name": name, "species_id": species})]
    (a serde_json [Map] keeps its keys in order). *)
Definition animal_rows : list Value :=
  map (fun '(id, nm, species) =>
         VObject [("animal_id", vint id); ("animal_name", VString nm);
                  ("species_id", vint species)])
      [(1, "horse"%string, 1); (2, "dog"%string, 1); (3, "snake"%string, 2)].

Definition species_rows : list Value :=
  map (fun '(id, nm) => VObject [("species_id", vint id); ("species_name", VString nm)])
      [(1, "mammal"%string); (2, "reptile"%string); (3, "bird"%string)].

Section RowSource.

(** The parsed contents of the static JSON-lines files [Album.jsonl],
    [Artist.jsonl] and [Track.jsonl] read by [include_str!]; they are not
    part of the sources. *)
Variable static_rows : string -> list Value.

(** [from::raw_rows_for_table]. *)
Definition raw_rows_for_table (table_name : string) : Outcome QueryError (list Value) :=
  if decide (table_name = "animal") then Ok animal_rows
  else if decide (table_name = "species") then Ok species_rows
  else if decide (table_name = "Album") then Ok (static_rows "Album")
  else if decide (table_name = "Artist") then Ok (static_rows "Artist")
  else if decide (table_name = "Track") then Ok (static_rows "Track")
  else Panicked "not yet implemented: table not found".

End RowSource.

(** [Map::remove] on the entries of a JSON object. *)
Fixpoint map_remove (key : string) (m : list (string * Value))
    : option (Value * list (string * Value)) :=
  match m with
  | [] => None
  | (k, v) :: rest =>
      if decide (k = key) then Some (v, rest)
      else match map_remove key rest with
           | Some (found, rest') => Some (found, (k, v) :: rest')
           | None => None
           end
  end.

(** The loop of [from::into_row]. *)
Fixpoint into_row_items (m : list (string * Value)) (cols : list Column)
    : Outcome QueryError (list Value) :=
  match cols with
  | [] => Ok []
  | column :: rest =>
      match map_remove (name column) m with
      | Some (item, m') => its ← into_row_items m' rest; Ok (item :: its)
      | None => Panicked ("could not find " ++ name column)
      end
  end.

(** [from::into_row]. *)
Definition into_row (value : Value) (cols : list Column) : Outcome QueryError Row :=
  match value with
  | VObject m => its ← into_row_items m cols; Ok (mkRow its)
  | _ => Panicked "what is this"
  end.

Section Scans.

Variable static_rows : string -> list Value.

(** [from::table_scan]: one cost tick per emitted row. *)
Definition table_scan (table_name : string) (table_alias : option string) (catalog : Catalog)
    : Outcome QueryError QueryStep :=
  names ← from_schema table_name catalog;
  let cols := map (fun nm => mkColumn nm table_alias) names in
  raw ← raw_rows_for_table static_rows table_name;
  rows ← mapM (fun r => into_row r cols) raw;
  Ok (mkQueryStep (mkSchema (map SColumn cols)) rows (length raw)).

(** [from::index_scan] as written: after the schema, the body reads
    [let raw = raw_rows_for_table(table_name).into_iter().;] followed by the
    comment [// get only relevant rows from `raw`] and then converts every
    raw row as [table_scan] does; [index] and [values] are never used. *)
Definition index_scan (table_name : string) (table_alias : option string) (index : Index)
    (values : list Value) (catalog : Catalog) : Outcome QueryError QueryStep :=
  names ← from_schema table_name catalog;
  let cols := map (fun nm => mkColumn nm table_alias) names in
  raw ← raw_rows_for_table static_rows table_name;
  rows ← mapM (fun r => into_row r cols) raw;
  Ok (mkQueryStep (mkSchema (map SColumn cols)) rows (length raw)).

End Scans.

(** *** [indexes.rs] *)

(** [serde_json::Value::get] with a string key. *)
Fixpoint object_get (key : string) (m : list (string * Value)) : option Value :=
  match m with
  | [] => None
  | (k, v) :: rest => if decide (k = key) then Some v else object_get key rest
  end.

Definition value_get (v : Value) (key : string) : option Value :=
  match v with VObject m => object_get key m | _ => None end.

Abbreviation ConstructedIndex := (gmap Z (list nat)).

Section Indexes.

Variable calculate_hash : Value -> Z.

(** The loop of [indexes::construct_index], from position [i]. *)
Fixpoint construct_index_from (index : Index) (i : nat) (rows : list Value)
    (its : gmap Z (list nat)) : gmap Z (list nat) :=
  match rows with
  | [] => its
  | row :: rest =>
      let values := map (fun column => match value_get row column with
                                       | Some value => value
                                       | None => VNull
                                       end) (index_columns index) in
      let hash := calculate_hash (VArray values) in
      let its := match its !! hash with
                 | Some line_numbers => <[hash := line_numbers ++ [i]]> its
                 | None => <[hash := [i]]> its
                 end in
      construct_index_from index (S i) rest its
  end.

(** [indexes::construct_index]. *)
Definition construct_index (index : Index) (rows : list Value) : ConstructedIndex :=
  construct_index_from index 0 rows ∅.

End Indexes.

(** [indexes::ConstructedIndexes]: per table, its indexes in catalog order. *)
Abbreviation ConstructedIndexes := (gmap string (list (Index * ConstructedIndex))).

(* ------------------------------------------------------------------ *)
(** ** Plans *)

(** [LogicalPlan] and [PhysicalPlan], over the type [E] of their filter and
    projection expressions: the planner ([to_physical_plan.rs]) is written
    against the draft whose filters are [Expr::ColumnComparison], the
    executor ([query.rs], [filter.rs]) against [types::Expr]. *)
Inductive LogicalPlan (E : Type) : Type :=
  | LFrom (table_name : string) (table_alias : option string)
  | LFilter (from : LogicalPlan E) (filter : E)
  | LJoin (join_type : JoinType) (left_from right_from : LogicalPlan E) (on : JoinOn)
  | LLimit (from : LogicalPlan E) (limit : nat)
  | LProject (from : LogicalPlan E) (fields : list E).
Arguments LFrom {E}. Arguments LFilter {E}. Arguments LJoin {E}.
Arguments LLimit {E}. Arguments LProject {E}.

Inductive PhysicalPlan (E : Type) : Type :=
  | TableScan (table_name : string) (table_alias : option string)
  | IndexScan (table_name : string) (table_alias : option string) (index : Index)
      (values : list Value)
  | PFilter (from : PhysicalPlan E) (filter : E)
  | PProject (from : PhysicalPlan E) (fields : list E)
  | PLimit (from : PhysicalPlan E) (limit : nat)
  | PJoin (join_type : JoinType) (left_from right_from : PhysicalPlan E) (on : JoinOn).
Arguments TableScan {E}. Arguments IndexScan {E}. Arguments PFilter {E}.
Arguments PProject {E}. Arguments PLimit {E}. Arguments PJoin {E}.

(** *** [to_physical_plan.rs] *)

(** The filter expression of the planner's draft of [types::Expr]. *)
Inductive FilterExpr : Type :=
  | ColumnComparison (column : Column) (op : Op) (literal : Value).

(** [columns_in_filter]: the bindings [column name -> literal]; only an
    [Equals] comparison binds. *)
Definition columns_in_filter (expr : FilterExpr) : gmap string Value :=
  match expr with
  | ColumnComparison column Equals literal => {[ name column := literal ]}
  | ColumnComparison _ _ _ => ∅
  end.

(** The loop of [find_index] over the indexes of the table. *)
Fixpoint find_index_in (indexes_for_table : list (Index * ConstructedIndex))
    (filter_columns : gmap string Value) : option (Index * list Value) :=
  match indexes_for_table with
  | [] => None
  | (index, _) :: rest =>
      match mapM (fun column => filter_columns !! column) (index_columns index) with
      | Some values => Some (index, [VArray values])
      | None => find_index_in rest filter_columns
      end
  end.

(** [find_index]. *)
Definition find_index (indexes : ConstructedIndexes) (table_name : string)
    (filter_columns : gmap string Value) : option (Index * list Value) :=
  match indexes !! table_name with
  | Some indexes_for_table => find_index_in indexes_for_table filter_columns
  | None => None
  end.

(** [to_physical_plan], with [filter_to_physical_plan] inlined in its
    [Filter] case. *)
Fixpoint to_physical_plan (logical_plan : LogicalPlan FilterExpr)
    (indexes : ConstructedIndexes) : PhysicalPlan FilterExpr :=
  match logical_plan with
  | LFrom table_name table_alias => TableScan table_name table_alias
  | LFilter from filter =>
      match from with
      | LFrom table_name table_alias =>
          match find_index indexes table_name (columns_in_filter filter) with
          | Some (index, values) => IndexScan table_name table_alias index values
          | None => PFilter (to_physical_plan from indexes) filter
          end
      | _ => PFilter (to_physical_plan from indexes) filter
      end
  | LJoin join_type left_from right_from on =>
      PJoin join_type (to_physical_plan left_from indexes) (to_physical_plan right_from indexes) on
  | LLimit from limit => PLimit (to_physical_plan from indexes) limit
  | LProject from fields => PProject (to_physical_plan from indexes) fields
  end.

(** *** [query.rs]: the executor *)

(** The loop of the [Filter] case: one cost tick per child row. *)
Fixpoint filter_rows (schema : Schema) (filter : Expr) (rows : list Row) (cost : nat)
    : Outcome QueryError (list Row * nat) :=
  match rows with
  | [] => Ok ([], cost)
  | row :: rest =>
      let cost := S cost in
      keep ← apply_predicate row schema filter;
      '(filtered_rows, cost) ← filter_rows schema filter rest cost;
      Ok ((if (keep : bool) then row :: filtered_rows else filtered_rows), cost)
  end.

Section Executor.

Variable calculate_hash : Value -> Z.
Variable display_value : Value -> string.
Variable static_rows : string -> list Value.
Variable catalog : Catalog.

(** [run_physical_plan].  The [Project] case runs [project::project_fields]
    over all child rows with the node's cost (the draft of [query.rs] in
    the sources still calls a per-row [project_fields] of three arguments
    that [project.rs] no longer has). *)
Fixpoint run_physical_plan (physical_plan : PhysicalPlan Expr) : Outcome QueryError QueryStep :=
  match physical_plan with
  | TableScan table_name table_alias => table_scan static_rows table_name table_alias catalog
  | IndexScan table_name table_alias index values =>
      index_scan static_rows table_name table_alias index values catalog
  | PFilter from filter =>
      step ← run_physical_plan from;
      '(filtered_rows, cost) ← filter_rows (qs_schema step) filter (qs_rows step) (qs_cost step);
      Ok (mkQueryStep (qs_schema step) filtered_rows cost)
  | PProject from fields =>
      step ← run_physical_plan from;
      '(projected_rows, cost) ← project_fields (qs_rows step) (qs_schema step) fields (qs_cost step);
      schema ← project_schema display_value (qs_schema step) fields;
      Ok (mkQueryStep schema projected_rows cost)
  | PLimit from limit =>
      step ← run_physical_plan from;
      Ok (mkQueryStep (qs_schema step) (firstn limit (qs_rows step)) (qs_cost step))
  | PJoin join_type left_from right_from on =>
      l ← run_physical_plan left_from;
      r ← run_physical_plan right_from;
      hash_join calculate_hash (qs_schema l) (qs_schema r) on join_type
        (qs_rows l) (qs_rows r) (qs_cost l + qs_cost r)
  end.

End Executor.

(** *** [types.rs]: [QueryStep::to_json] *)

(** [impl Display for Column]. *)
Definition column_display (column : Column) : string :=
  match table_alias column with
  | Some alias => alias ++ "." ++ name column
  | None => name column
  end.

(** [impl Display for SchemaColumn]. *)
Definition schema_column_display (column : SchemaColumn) : string :=
  match column with
  | SColumn c => column_display c
  | SNamed s => s
  end.

(** [Schema::get_index_for_named]: the first [SchemaColumn::Named] entry
    equal to [named]. *)
Fixpoint index_for_named_from (i : nat) (cols : list SchemaColumn) (named : string)
    : option nat :=
  match cols with
  | [] => None
  | SNamed n :: rest =>
      if decide (n = named) then Some i else index_for_named_from (S i) rest named
  | SColumn _ :: rest => index_for_named_from (S i) rest named
  end.

Definition get_index_for_named (schema : Schema) (named : string) : option nat :=
  index_for_named_from 0 (columns schema) named.

(** [Row::get_named]. *)
Definition get_named (row : Row) (named : string) (schema : Schema) : option Value :=
  match get_index_for_named schema named with
  | Some i => items row !! i
  | None => None
  end.

(** [serde_json::Map::insert], the map being a [BTreeMap<String, Value>]
    (serde_json without [preserve_order]): the entries are kept sorted by
    key, and inserting an existing key replaces its value. *)
Fixpoint json_map_insert (key : string) (value : Value) (m : list (string * Value))
    : list (string * Value) :=
  match m with
  | [] => [(key, value)]
  | (k, v) :: rest =>
      match String.compare key k with
      | Lt => (key, value) :: m
      | Eq => (key, value) :: rest
      | Gt => (k, v) :: json_map_insert key value rest
      end
  end.

(** The inner loop of [to_json]: one entry per schema column, keyed by its
    [Display]; [unwrap] on a missing item. *)
Fixpoint to_json_row (schema : Schema) (row : Row) (cols : list SchemaColumn)
    (output_row : list (string * Value)) : Outcome QueryError (list (string * Value)) :=
  match cols with
  | [] => Ok output_row
  | column :: rest =>
      value ← match column with
              | SColumn column_name => unwrap (get_column row column_name schema)
              | SNamed named => unwrap (get_named row named schema)
              end;
      to_json_row schema row rest
        (json_map_insert (schema_column_display column) value output_row)
  end.

(** [QueryStep::to_json]. *)
Definition to_json (step : QueryStep) : Outcome QueryError Value :=
  output_rows ← mapM (fun row =>
                        output_row ← to_json_row (qs_schema step) row (columns (qs_schema step)) [];
                        Ok (VObject output_row))
                     (qs_rows step);
  Ok (VArray output_rows).

(** *** [order_by.rs] *)

Inductive Order : Type := Asc | Desc.

Record OrderByExpr : Type := mkOrderByExpr { ob_column : Column; ob_order : Order }.

(** [impl Ord for bool]: [false < true]. *)
Definition bool_cmp (a b : bool) : comparison :=
  match a, b with
  | false, true => Lt
  | true, false => Gt
  | _, _ => Eq
  end.

(** The bit pattern of the f64 nearest to an integer of magnitude below
    2^64 ([as f64]: round to nearest, ties to even). *)
Definition z_to_f64_bits (n : Z) : Z :=
  if n =? 0 then 0 else
  let sign := if n <? 0 then 1 else 0 in
  let m := Z.abs n in
  let e := Z.log2 m in
  let '(q, e') :=
    if e <=? 52 then (m * 2 ^ (52 - e), e) else
    let sh := e - 52 in
    let q := Z.shiftr m sh in
    let r := m - Z.shiftl q sh in
    let half := 2 ^ (sh - 1) in
    let q := if (half <? r) || ((r =? half) && Z.odd q) then q + 1 else q in
    if q =? 2 ^ 53 then (2 ^ 52, e + 1) else (q, e) in
  Z.lor (Z.shiftl sign 63) (Z.lor (Z.shiftl (e' + 1023) 52) (q - 2 ^ 52)).

(** [Number::as_f64]. *)
Definition number_as_f64 (n : Number) : option Z :=
  match n with
  | PosInt u => Some (z_to_f64_bits u)
  | NegInt i => Some (z_to_f64_bits i)
  | Float f => Some f
  end.

(** [f64::total_cmp]: compare the bits as i64 after flipping all but the
    sign bit of negative values. *)
Definition f64_total_key (bits : Z) : Z :=
  let s := if bits <? 2 ^ 63 then bits else bits - 2 ^ 64 in
  if s <? 0 then Z.lxor s (2 ^ 63 - 1) else s.

Definition f64_total_cmp (a b : Z) : comparison :=
  Z.compare (f64_total_key a) (f64_total_key b).

(** [order_by::compare_values]. *)
Definition compare_values (a b : Value) : Outcome QueryError comparison :=
  match a, b with
  | VNull, VNull => Ok Eq
  | VBool x, VBool y => Ok (bool_cmp x y)
  | VNumber x, VNumber y =>
      match as_i64 a, as_i64 b with
      | Some x', Some y' => Ok (Z.compare x' y')
      | _, _ =>
          match number_as_f64 x, number_as_f64 y with
          | Some x', Some y' => Ok (f64_total_cmp x' y')
          | _, _ => Ok Eq
          end
      end
  | VString x, VString y => Ok (String.compare x y)
  | _, _ => Panicked "not yet implemented: Unsupported ordering"
  end.

(** [order_by::flip]. *)
Definition flip (ordering : comparison) : comparison :=
  match ordering with
  | Eq => Eq
  | Lt => Gt
  | Gt => Lt
  end.

(** The [fold] of the comparator of [order_by]: a key is looked at only
    while the ordering so far is [Equal]. *)
Fixpoint order_fold (schema : Schema) (row_a row_b : Row) (ordering : comparison)
    (order_by_exprs : list OrderByExpr) : Outcome QueryError comparison :=
  match order_by_exprs with
  | [] => Ok ordering
  | order_by_expr :: rest =>
      let next :=
        if decide (ordering = Eq) then
          a ← unwrap (get_column row_a (ob_column order_by_expr) schema);
          b ← unwrap (get_column row_b (ob_column order_by_expr) schema);
          o ← compare_values a b;
          Ok (match ob_order order_by_expr with Asc => o | Desc => flip o end)
        else Ok ordering in
      o ← next; order_fold schema row_a row_b o rest
  end.

(** The comparator passed to [sort_by]. *)
Definition order_compare (schema : Schema) (order_by_exprs : list OrderByExpr) (row_a row_b : Row)
    : Outcome QueryError comparison :=
  order_fold schema row_a row_b Eq order_by_exprs.

Section SortBy.

Context {A : Type}.
Variable compare : A -> A -> Outcome QueryError comparison.

(** [slice::sort_by] on slices of at most 20 elements, where it is
    [insertion_sort_shift_left]: each element in turn is moved left past
    the sorted prefix while [compare(new, previous) == Less].  The sorted
    prefix is kept reversed (its last element first); each comparison is
    one call of the comparator closure, which ticks the cost.  On longer
    slices the standard library runs driftsort instead (other comparisons,
    other cost, and for a comparator that is not a total order an
    unspecified order or a panic): [sort_by] is that function only on at
    most 20 elements, and the results about it below assume so. *)
Fixpoint insert_tail (x : A) (prefix_rev : list A) (cost : nat)
    : Outcome QueryError (list A * nat) :=
  match prefix_rev with
  | [] => Ok ([x], cost)
  | y :: ys =>
      let cost := S cost in
      c ← compare x y;
      match c with
      | Lt => '(r, cost) ← insert_tail x ys cost; Ok (y :: r, cost)
      | _ => Ok (x :: y :: ys, cost)
      end
  end.

Fixpoint insertion_sort_rev (rows prefix_rev : list A) (cost : nat)
    : Outcome QueryError (list A * nat) :=
  match rows with
  | [] => Ok (prefix_rev, cost)
  | row :: rest =>
      '(prefix_rev, cost) ← insert_tail row prefix_rev cost;
      insertion_sort_rev rest prefix_rev cost
  end.

Definition sort_by (rows : list A) (cost : nat) : Outcome QueryError (list A * nat) :=
  '(sorted_rev, cost) ← insertion_sort_rev rows [] cost; Ok (rev sorted_rev, cost).

End SortBy.

(** [order_by::order_by]. *)
Definition order_by (rows : list Row) (schema : Schema) (order_by_exprs : list OrderByExpr)
    (cost : nat) : Outcome QueryError (list Row * nat) :=
  sort_by (order_compare schema order_by_exprs) rows cost.

(** *** [catalog.rs] *)

Definition animal_table : Table :=
  mkTable ["animal_id"; "animal_name"; "species_id"]
    [mkIndex "animal" ["animal_id"]; mkIndex "animal" ["species_id"]].

Definition species_table : Table :=
  mkTable ["species_id"; "species_name"] [mkIndex "species" ["species_id"]].

Definition album_table : Table :=
  mkTable ["AlbumId"; "Title"; "ArtistId"]
    [mkIndex "Album" ["AlbumId"]; mkIndex "Album" ["ArtistId"]].

Definition artist_table : Table :=
  mkTable ["ArtistId"; "Name"] [mkIndex "Artist" ["ArtistId"]].

Definition track_table : Table :=
  mkTable ["TrackId"; "Name"; "AlbumId"; "MediaTypeId"; "GenreId"; "Composer";
           "Milliseconds"; "Bytes"; "UnitPrice"]
    [mkIndex "Track" ["TrackId"]; mkIndex "Track" ["AlbumId"];
     mkIndex "Track" ["MediaTypeId"]; mkIndex "Track" ["GenreId"]].

(** [catalog::get_static_catalog]. *)
Definition get_static_catalog : Catalog :=
  list_to_map [("animal", animal_table); ("species", species_table);
               ("Album", album_table); ("Artist", artist_table); ("Track", track_table)].

Section ConstructIndexes.

Variable calculate_hash : Value -> Z.
Variable static_rows : string -> list Value.

(** The indexes of one table, in declaration order. *)
Definition construct_table_indexes (table : Table)
    : Outcome QueryError (list (Index * ConstructedIndex)) :=
  mapM (fun index =>
          rows ← raw_rows_for_table static_rows (index_table_name index);
          Ok (index, construct_index calculate_hash index rows))
       (table_indexes table).

(** [Catalog::construct_indexes]. *)
Definition construct_indexes (catalog : Catalog) : Outcome QueryError ConstructedIndexes :=
  kvs ← mapM (fun '(table_name, table) =>
                indexes ← construct_table_indexes table; Ok (table_name, indexes))
             (map_to_list catalog);
  Ok (list_to_map kvs).

End ConstructIndexes.

(* ------------------------------------------------------------------ *)
(** ** Readings of the specification, to compare the code with *)

(** The comparator of the specification's [OrderBy] (section 4): for each
    key in order, resolve the column in the schema and compare the two
    values; if they are equal continue with the next key, otherwise return
    the comparison, flipped when the key is [Desc]. *)
Fixpoint spec_lex_compare (schema : Schema) (keys : list OrderByExpr) (row_a row_b : Row)
    : Outcome QueryError comparison :=
  match keys with
  | [] => Ok Eq
  | key :: rest =>
      a ← unwrap (get_column row_a (ob_column key) schema);
      b ← unwrap (get_column row_b (ob_column key) schema);
      o ← compare_values a b;
      match o with
      | Eq => spec_lex_compare schema rest row_a row_b
      | _ => Ok (match ob_order key with Asc => o | Desc => flip o end)
      end
  end.

Section CostModel.

Variable calculate_hash : Value -> Z.
Variable display_value : Value -> string.
Variable static_rows : string -> list Value.
Variable catalog : Catalog.

(** The number of rows a plan produces. *)
Definition rows_of (p : PhysicalPlan Expr) : option nat :=
  match run_physical_plan calculate_hash display_value static_rows catalog p with
  | Ok step => Some (length (qs_rows step))
  | _ => None
  end.

(** Cost as the specification's per-operator increments, with [Project]
    adding one per child row in the aggregate pass (when some field is an
    aggregate) and one per child row in the per-row pass (when not every
    field is). *)
Fixpoint spec_claimed_cost (p : PhysicalPlan Expr) : option nat :=
  match p with
  | TableScan _ _ | IndexScan _ _ _ _ => rows_of p
  | PFilter from _ => c ← spec_claimed_cost from; n ← rows_of from; Some (c + n)%nat
  | PProject from fields =>
      c ← spec_claimed_cost from; n ← rows_of from;
      Some (c + (if existsb is_aggregate_expr fields then n else 0)
              + (if forallb is_aggregate_expr fields then 0 else n))%nat
  | PLimit from _ => spec_claimed_cost from
  | PJoin _ l r _ =>
      cl ← spec_claimed_cost l; cr ← spec_claimed_cost r;
      nl ← rows_of l; nr ← rows_of r; Some (cl + cr + nl + nr + nl)%nat
  end.

(** Cost as increments per operator, with the aggregate pass of [Project]
    adding nothing. *)
Fixpoint operator_cost (p : PhysicalPlan Expr) : option nat :=
  match p with
  | TableScan _ _ | IndexScan _ _ _ _ => rows_of p
  | PFilter from _ => c ← operator_cost from; n ← rows_of from; Some (c + n)%nat
  | PProject from fields =>
      c ← operator_cost from; n ← rows_of from;
      Some (c + (if forallb is_aggregate_expr fields then 0 else n))%nat
  | PLimit from _ => operator_cost from
  | PJoin _ l r _ =>
      cl ← operator_cost l; cr ← operator_cost r;
      nl ← rows_of l; nr ← rows_of r; Some (cl + cr + nl + nr + nl)%nat
  end.

End CostModel.

(** A column of no table alias. *)
Definition col (s : string) : Column := mkColumn s None.

(** Two values of the same kind (the specification's value domain: null,
    bool, number, string, array, object). *)
Definition same_kind (a b : Value) : bool :=
  match a, b with
  | VNull, VNull | VBool _, VBool _ | VNumber _, VNumber _ | VString _, VString _
  | VArray _, VArray _ | VObject _, VObject _ => true
  | _, _ => false
  end.

(** ** Sample data *)

(** [sum(e)]. *)
Definition sum_of (e : Expr) : Expr := EFunctionCall (Aggregate Sum) [e].

(** The schema and rows of [SELECT * FROM animal] and [SELECT * FROM species]. *)
Definition animal_schema : Schema :=
  mkSchema (map SColumn [col "animal_id"; col "animal_name"; col "species_id"]).

Definition animal_table_rows : list Row :=
  [mkRow [vint 1; VString "horse"; vint 1];
   mkRow [vint 2; VString "dog"; vint 1];
   mkRow [vint 3; VString "snake"; vint 2]].

Definition species_schema : Schema :=
  mkSchema (map SColumn [col "species_id"; col "species_name"]).

Definition species_table_rows : list Row :=
  [mkRow [vint 1; VString "mammal"];
   mkRow [vint 2; VString "reptile"];
   mkRow [vint 3; VString "bird"]].

(** A hash that is injective on small integers, for examples. *)
Definition small_int_hash (v : Value) : Z :=
  match v with VNumber (PosInt n) => n | _ => -1 end.

(* ------------------------------------------------------------------ *)
(** ** [calculate_hash]: [DefaultHasher] over serde_json's [Hash] *)

(** [join::calculate_hash] (and the same function of [indexes.rs]) feeds a
    value to [DefaultHasher::new()], which is SipHash-1-3 with the keys
    [0, 0], and returns [finish()].  The hasher sees the bytes that the
    [Hash] implementations write; they are listed by [value_hash_bytes],
    then hashed by [sip13_hash]. *)

Definition u64_mask : Z := 2 ^ 64 - 1.

(** [u64::wrapping_add] and [u64::rotate_left]. *)
Definition wrapping_add (a b : Z) : Z := Z.land (a + b) u64_mask.
Definition rotate_left (x n : Z) : Z :=
  Z.land (Z.lor (Z.shiftl x n) (Z.shiftr x (64 - n))) u64_mask.

Record SipState : Type := mkSipState { v0 : Z; v1 : Z; v2 : Z; v3 : Z }.

(** The [compress!] macro of [core::hash::sip]: one SipRound. *)
Definition compress (s : SipState) : SipState :=
  let '(mkSipState v0 v1 v2 v3) := s in
  let v0 := wrapping_add v0 v1 in
  let v2 := wrapping_add v2 v3 in
  let v1 := rotate_left v1 13 in
  let v1 := Z.lxor v1 v0 in
  let v3 := rotate_left v3 16 in
  let v3 := Z.lxor v3 v2 in
  let v0 := rotate_left v0 32 in
  let v2 := wrapping_add v2 v1 in
  let v0 := wrapping_add v0 v3 in
  let v1 := rotate_left v1 17 in
  let v1 := Z.lxor v1 v2 in
  let v3 := rotate_left v3 21 in
  let v3 := Z.lxor v3 v0 in
  let v2 := rotate_left v2 32 in
  mkSipState v0 v1 v2 v3.

(** [Hasher::reset]. *)
Definition sip_reset (k0 k1 : Z) : SipState :=
  mkSipState (Z.lxor k0 0x736f6d6570736575) (Z.lxor k1 0x646f72616e646f6d)
             (Z.lxor k0 0x6c7967656e657261) (Z.lxor k1 0x7465646279746573).

(** [u8to64_le]: bytes read as a little-endian integer. *)
Fixpoint u8to64_le (bytes : list Z) : Z :=
  match bytes with
  | [] => 0
  | b :: rest => Z.lor b (Z.shiftl (u8to64_le rest) 8)
  end.

(** One message word: [v3 ^= m; c_rounds (one compress for SipHash-1-3); v0 ^= m]. *)
Definition c_rounds (m : Z) (s : SipState) : SipState :=
  let '(mkSipState v0 v1 v2 v3) := s in
  let '(mkSipState v0 v1 v2 v3) := compress (mkSipState v0 v1 v2 (Z.lxor v3 m)) in
  mkSipState (Z.lxor v0 m) v1 v2 v3.

(** The full 8-byte words of the input, in order; returns the tail. *)
Fixpoint sip_blocks (s : SipState) (bytes : list Z) : SipState * list Z :=
  match bytes with
  | b0 :: b1 :: b2 :: b3 :: b4 :: b5 :: b6 :: b7 :: rest =>
      sip_blocks (c_rounds (u8to64_le [b0; b1; b2; b3; b4; b5; b6; b7]) s) rest
  | _ => (s, bytes)
  end.

(** SipHash-1-3 of a byte sequence: the words, then [finish] (the length
    byte over the tail, [v2 ^= 0xff] and three d_rounds). *)
Definition sip13_hash (k0 k1 : Z) (bytes : list Z) : Z :=
  let '(s, tail) := sip_blocks (sip_reset k0 k1) bytes in
  let b := Z.lor (Z.shiftl (Z.land (Z.of_nat (length bytes)) 0xff) 56) (u8to64_le tail) in
  let '(mkSipState v0 v1 v2 v3) := c_rounds b s in
  let '(mkSipState v0 v1 v2 v3) :=
    compress (compress (compress (mkSipState v0 v1 (Z.lxor v2 0xff) v3))) in
  Z.lxor (Z.lxor v0 v1) (Z.lxor v2 v3).

(** [to_le_bytes] of an [n]-byte integer (two's complement for negatives). *)
Fixpoint le_bytes (n : nat) (x : Z) : list Z :=
  match n with
  | O => []
  | S n => Z.land x 255 :: le_bytes n (Z.shiftr x 8)
  end.

(** [Hasher::write_u64] / [write_i64], [write_usize] (64-bit target),
    [write_u8]. *)
Definition write_u64 (x : Z) : list Z := le_bytes 8 x.
Definition write_usize (n : nat) : list Z := le_bytes 8 (Z.of_nat n).
Definition write_u8 (x : Z) : list Z := [Z.land x 255].

(** [str::hash]: [write_str], that is the bytes then [0xff]. *)
Definition str_hash_bytes (s : string) : list Z :=
  map (fun a => Z.of_N (Ascii.N_of_ascii a)) (list_ascii_of_string s) ++ write_u8 0xff.

(** [impl Hash for N]: the integer, with no variant tag; a float by its
    bits, except that both zeros hash as [0.0f64.to_bits()], which is [0]. *)
Definition number_hash_bytes (n : Number) : list Z :=
  match n with
  | PosInt u => write_u64 u
  | NegInt i => write_u64 i
  | Float f => write_u64 (if f64_is_zero f then 0 else f)
  end.

(** The derived [Hash] of [serde_json::Value]: the discriminant (an
    [isize], variants numbered in declaration order), then the field; a
    [Vec] and a [BTreeMap] write their length first, a map entry its key
    then its value. *)
Fixpoint value_hash_bytes (v : Value) : list Z :=
  match v with
  | VNull => write_usize 0
  | VBool b => write_usize 1 ++ write_u8 (if b then 1 else 0)
  | VNumber n => write_usize 2 ++ number_hash_bytes n
  | VString s => write_usize 3 ++ str_hash_bytes s
  | VArray vs =>
      write_usize 4 ++ write_usize (length vs) ++
      (fix go (vs : list Value) : list Z :=
         match vs with
         | [] => []
         | x :: vs' => value_hash_bytes x ++ go vs'
         end) vs
  | VObject kvs =>
      write_usize 5 ++ write_usize (length kvs) ++
      (fix go (kvs : list (string * Value)) : list Z :=
         match kvs with
         | [] => []
         | (k, x) :: kvs' => str_hash_bytes k ++ value_hash_bytes x ++ go kvs'
         end) kvs
  end.

(** [join::calculate_hash] on a [serde_json::Value]. *)
Definition calculate_hash (v : Value) : Z := sip13_hash 0 0 (value_hash_bytes v).

(* ------------------------------------------------------------------ *)
(** * Proofs *)

(** ** Results of binds *)

Lemma bind_Ok {E A B} (m : Outcome E A) (f : A -> Outcome E B) b :
  (m ≫= f) = Ok b -> exists a, m = Ok a /\ f a = Ok b.
Proof. destruct m; simpl; intros H; [eauto | discriminate | discriminate]. Qed.

Lemma bind_Ok_eq {E A B} (a : A) (f : A -> Outcome E B) : (Ok a ≫= f) = f a.
Proof. reflexivity. Qed.


(** Invert [Ok] results of a chain of binds. *)
Ltac inv_ok :=
  repeat match goal with
  | H : (?m ≫= _) = Ok _ |- _ =>
      let a := fresh "a" in let Ha := fresh "Ha" in
      apply bind_Ok in H as [a [Ha H]]
  | H : Ok _ = Ok _ |- _ => injection H as H
  | H : mret _ = Ok _ |- _ => injection H as H
  | H : Err _ = Ok _ |- _ => discriminate H
  | H : Panicked _ = Ok _ |- _ => discriminate H
  end.


(** ** Expression evaluation ([filter.rs]) *)

Lemma map_err_Ok {E F A} (f : E -> F) (m : Outcome E A) a :
  map_err f m = Ok a -> m = Ok a.
Proof. destruct m; simpl; congruence. Qed.

(** C7: an expression that contains an aggregate function call never
    evaluates to a value row-locally ([evaluate_expr], as for a WHERE
    predicate): it panics at [todo!] or fails on an operand before it; so
    the predicate is never decided either. *)
Theorem evaluate_expr_aggregate_no_value (e : Expr) (row : Row) (schema : Schema) :
  is_aggregate_expr e = true ->
  (forall v, evaluate_expr row schema e <> Ok v) /\
  (forall b, apply_predicate row schema e <> Ok b).
Proof.
  intros Hagg.
  assert (Hno : forall v, evaluate_expr row schema e <> Ok v).
  { induction e as [c | lit | lhs IHl op rhs IHr | e' IH | fn args]; simpl in *;
      intros v Hv; try discriminate.
    - inv_ok. apply orb_true_iff in Hagg as [Hl | Hr].
      + exact (IHl Hl _ Ha).
      + exact (IHr Hr _ Ha0).
    - exact (IH Hagg v Hv). }
  split; [exact Hno |].
  intros b Hb. unfold apply_predicate in Hb. inv_ok. exact (Hno _ Ha).
Qed.

Lemma evaluate_expr_aggregate_no_value_witness :
  is_aggregate_expr (EFunctionCall (Aggregate Sum) [EColumn (col "animal_id")]) = true /\
  forall v, evaluate_expr (mkRow [vint 1]) (mkSchema [SColumn (col "animal_id")])
              (EFunctionCall (Aggregate Sum) [EColumn (col "animal_id")]) <> Ok v.
Proof.
  split; [reflexivity |].
  apply (evaluate_expr_aggregate_no_value
           (EFunctionCall (Aggregate Sum) [EColumn (col "animal_id")])
           (mkRow [vint 1]) (mkSchema [SColumn (col "animal_id")])).
  reflexivity.
Defined.

(** C7 does not hold as stated: there is no [CannotUseAggregateFunctionInFilter]
    error; [sum(animal_id)] in a WHERE predicate panics at
    [todo!("function call in evaluate_expr")]. *)
Lemma aggregate_in_filter_panics :
  evaluate_expr (mkRow [vint 1]) (mkSchema [SColumn (col "animal_id")])
    (EBinaryOperation (EFunctionCall (Aggregate Sum) [EColumn (col "animal_id")])
       Equals (ELiteral (vint 6)))
  = Panicked "not yet implemented: function call in evaluate_expr".
Proof. reflexivity. Qed.

Lemma value_eqb_kind (a b : Value) : same_kind a b = false -> value_eqb a b = false.
Proof. destruct a, b; simpl; congruence. Qed.

(** C8: [match_op] on evaluated operands.  [=] is the structural equality
    [value_eqb], never an error, and false on operands of different kinds.
    The other operators ask [as_i64] of the left operand, then of the right
    one, and fail with [ExpectedInt] of the first that is not an i64 (so a
    string and an integer under [>] fail).  On two i64 operands a
    comparison is the comparison of the integers, and [+] or [-] is the
    integer result when it is in the i64 range and an overflow panic
    otherwise (the debug profile). *)
Theorem match_op_semantics (a b : Value) :
  match_op a Equals b = Ok (VBool (value_eqb a b)) /\
  (same_kind a b = false -> match_op a Equals b = Ok (VBool false)) /\
  (forall op, op <> Equals ->
     (as_i64 a = None -> match_op a op b = Err (ExpectedInt a)) /\
     (forall x, as_i64 a = Some x -> as_i64 b = None -> match_op a op b = Err (ExpectedInt b))) /\
  (forall x y, as_i64 a = Some x -> as_i64 b = Some y ->
     match_op a GreaterThan b = Ok (VBool (bool_decide (x > y))) /\
     match_op a GreaterThanOrEqual b = Ok (VBool (bool_decide (x >= y))) /\
     match_op a LessThan b = Ok (VBool (bool_decide (x < y))) /\
     match_op a LessThanOrEqual b = Ok (VBool (bool_decide (x <= y))) /\
     match_op a Add b =
       (if decide (i64_min <= x + y <= i64_max) then Ok (VNumber (number_of_i64 (x + y)))
        else Panicked "attempt to add with overflow") /\
     match_op a Subtract b =
       (if decide (i64_min <= x - y <= i64_max) then Ok (VNumber (number_of_i64 (x - y)))
        else Panicked "attempt to subtract with overflow")).
Proof.
  split; [reflexivity |].
  split; [intros Hk; simpl; rewrite (value_eqb_kind a b Hk); reflexivity |].
  split.
  - intros op Hop. unfold match_op, as_int.
    split.
    + intros Ha. rewrite Ha. destruct op; [congruence | reflexivity ..].
    + intros x Ha Hb. rewrite Ha, Hb. destruct op; [congruence | reflexivity ..].
  - intros x y Ha Hb. unfold match_op, as_int. rewrite Ha, Hb. simpl.
    unfold i64_add, i64_sub, i64_checked.
    repeat split; f_equal; f_equal;
      repeat match goal with
      | |- context [bool_decide ?P] => destruct (bool_decide_reflect P)
      | |- context [decide ?P] => destruct (decide P)
      end;
      repeat match goal with
      | |- context [?u <? ?v] => destruct (Z.ltb_spec u v)
      | |- context [?u <=? ?v] => destruct (Z.leb_spec u v)
      end; simpl; try reflexivity; lia.
Qed.

(** C8 does not hold as stated for [+] and [-]: on i64 operands whose sum
    leaves the i64 range, [match_op] does not return the integer sum (here
    it panics; a release build would wrap to [i64::MIN]). *)
Lemma match_op_add_overflow :
  match_op (vint i64_max) Add (vint 1) = Panicked "attempt to add with overflow" /\
  as_i64 (vint i64_max) = Some i64_max /\ as_i64 (vint 1) = Some 1.
Proof. repeat split; reflexivity. Qed.

(** ** Projection ([project.rs]) *)

Lemma filter_length_forallb {A} (p : A -> bool) (l : list A) :
  length (List.filter p l) = length l <-> forallb p l = true.
Proof.
  induction l as [| x l IH]; simpl; [tauto |].
  pose proof (List.filter_length_le p l) as Hle.
  destruct (p x); simpl; split; intros H.
  - apply IH. lia.
  - f_equal. apply IH. exact H.
  - lia.
  - discriminate.
Qed.

(** The aggregate pass: one entry per aggregate field, at its position,
    holding the aggregate's value; nothing at the other positions. *)
Lemma collect_aggregates_spec rows schema fields : forall i acc m,
  collect_aggregates rows schema i fields acc = Ok m ->
  (forall k, (i <= k)%nat -> acc !! k = None) ->
  size m = (size acc + length (List.filter is_aggregate_expr fields))%nat /\
  (forall k, (k < i)%nat -> m !! k = acc !! k) /\
  (forall j f, fields !! j = Some f ->
     (is_aggregate_expr f = true ->
        exists v, evaluate_aggregate_expr rows schema f = Ok v /\ m !! (i + j)%nat = Some v) /\
     (is_aggregate_expr f = false -> m !! (i + j)%nat = None)).
Proof.
  induction fields as [| f rest IH]; intros i acc m Hc Hfresh; simpl in Hc.
  - inv_ok. subst. simpl. split; [lia |]. split; [reflexivity |].
    intros j f Hj. rewrite lookup_nil in Hj. discriminate.
  - destruct (is_aggregate_expr f) eqn:Hf.
    + inv_ok. rename a into v.
      destruct (IH (S i) _ m Hc) as [Hsize [Hlow Hat]].
      { intros k Hk. rewrite lookup_insert_ne by lia. apply Hfresh. lia. }
      simpl. rewrite Hf. simpl.
      split.
      { rewrite Hsize, map_size_insert_None by (apply Hfresh; lia). lia. }
      split.
      { intros k Hk. rewrite Hlow by lia. rewrite lookup_insert_ne by lia. reflexivity. }
      intros [| j] g Hj; simpl in Hj.
      * injection Hj as <-. split; [| congruence].
        intros _. exists v. split; [exact Ha |].
        rewrite Nat.add_0_r, Hlow by lia. apply lookup_insert_eq.
      * replace (i + S j)%nat with (S i + j)%nat by lia. exact (Hat j g Hj).
    + destruct (IH (S i) _ m Hc) as [Hsize [Hlow Hat]].
      { intros k Hk. apply Hfresh. lia. }
      simpl. rewrite Hf. simpl.
      split; [exact Hsize |].
      split.
      { intros k Hk. apply Hlow. lia. }
      intros [| j] g Hj; simpl in Hj.
      * injection Hj as <-. split; [congruence |].
        intros _. rewrite Nat.add_0_r, Hlow by lia. apply Hfresh. lia.
      * replace (i + S j)%nat with (S i + j)%nat by lia. exact (Hat j g Hj).
Qed.

(** The value a projected field takes in a row: the aggregate over all rows
    for an aggregate field, the row-local value otherwise. *)
Lemma project_items_spec rows row schema aggregate_results fields : forall i vs,
  project_items row schema i fields aggregate_results = Ok vs ->
  (forall j f, fields !! j = Some f ->
     (is_aggregate_expr f = true ->
        exists v, evaluate_aggregate_expr rows schema f = Ok v /\
                  aggregate_results !! (i + j)%nat = Some v) /\
     (is_aggregate_expr f = false -> aggregate_results !! (i + j)%nat = None)) ->
  Forall2 (fun f v => if is_aggregate_expr f then evaluate_aggregate_expr rows schema f = Ok v
                      else evaluate_expr row schema f = Ok v) fields vs.
Proof.
  induction fields as [| f rest IH]; intros i vs Hp Hat; simpl in Hp; inv_ok; subst.
  - constructor.
  - constructor.
    + destruct (Hat 0%nat f eq_refl) as [Hagg Hplain]. rewrite Nat.add_0_r in Hagg, Hplain.
      destruct (is_aggregate_expr f).
      * destruct (Hagg eq_refl) as [v [Hv Hl]]. rewrite Hl in Ha. injection Ha as <-. exact Hv.
      * rewrite (Hplain eq_refl) in Ha. exact Ha.
    + apply (IH (S i) _ Ha0). intros j g Hj.
      replace (S i + j)%nat with (i + S j)%nat by lia. exact (Hat (S j) g Hj).
Qed.

Lemma project_rows_spec schema fields aggregate_results (P : Row -> Row -> Prop) :
  (forall row r, project_field_row row schema fields aggregate_results = Ok r -> P row r) ->
  forall rows cost out cost',
  project_rows rows schema fields aggregate_results cost = Ok (out, cost') ->
  Forall2 P rows out /\ cost' = (cost + length rows)%nat.
Proof.
  intros HP rows. induction rows as [| row rest IH]; intros cost out cost' Hp; simpl in Hp.
  - inv_ok. simplify_eq. split; [apply List.Forall2_nil | simpl; lia].
  - inv_ok. destruct a0 as [projected_rows c].
    destruct (IH _ _ _ Ha0) as [Hrest Hc]. simpl in Hp. simplify_eq.
    split; [constructor; [apply HP; exact Ha | exact Hrest] |]. simpl. lia.
Qed.

Lemma aggregate_items_spec rows schema aggregate_results fields : forall i vs,
  aggregate_items aggregate_results i fields = Ok vs ->
  (forall j f, fields !! j = Some f ->
     exists v, evaluate_aggregate_expr rows schema f = Ok v /\
               aggregate_results !! (i + j)%nat = Some v) ->
  Forall2 (fun f v => evaluate_aggregate_expr rows schema f = Ok v) fields vs.
Proof.
  induction fields as [| f rest IH]; intros i vs Hp Hat; simpl in Hp; inv_ok; subst.
  - constructor.
  - constructor.
    + destruct (Hat 0%nat f eq_refl) as [v [Hv Hl]]. rewrite Nat.add_0_r in Hl.
      rewrite Hl in Ha. injection Ha as <-. exact Hv.
    + apply (IH (S i) _ Ha0). intros j g Hj.
      replace (S i + j)%nat with (i + S j)%nat by lia. exact (Hat (S j) g Hj).
Qed.

(** The aggregate-only test of [project_fields]: the map has one entry per
    field exactly when every field is an aggregate. *)
Lemma collect_aggregates_all rows schema fields m :
  collect_aggregates rows schema 0 fields ∅ = Ok m ->
  (size m = length fields <-> forallb is_aggregate_expr fields = true).
Proof.
  intros Hc. destruct (collect_aggregates_spec rows schema fields 0 ∅ m Hc) as [Hsize _].
  { intros k _. apply lookup_empty. }
  rewrite Hsize, map_size_empty. simpl. apply filter_length_forallb.
Qed.

(** The two shapes of the output of [project_fields]. *)
Lemma project_fields_cases rows schema fields cost out cost' :
  project_fields rows schema fields cost = Ok (out, cost') ->
  (forallb is_aggregate_expr fields = true ->
     exists vs, out = [mkRow vs] /\ cost' = cost /\
       Forall2 (fun f v => evaluate_aggregate_expr rows schema f = Ok v) fields vs) /\
  (forallb is_aggregate_expr fields = false ->
     length out = length rows /\ cost' = (cost + length rows)%nat /\
     Forall2 (fun row r =>
                Forall2 (fun f v => if is_aggregate_expr f
                                    then evaluate_aggregate_expr rows schema f = Ok v
                                    else evaluate_expr row schema f = Ok v) fields (items r))
             rows out).
Proof.
  unfold project_fields. intros Hp. inv_ok. rename a into m.
  pose proof (collect_aggregates_all rows schema fields m Ha) as Hall.
  destruct (collect_aggregates_spec rows schema fields 0 ∅ m Ha) as [_ [_ Hat]].
  { intros k _. apply lookup_empty. }
  destruct (decide (size m = length fields)) as [Hs | Hs].
  - inv_ok. simplify_eq.
    assert (Htrue : forallb is_aggregate_expr fields = true) by (apply Hall; exact Hs).
    split; [| congruence].
    intros _. exists a. split; [reflexivity |]. split; [reflexivity |].
    apply (aggregate_items_spec rows schema m fields 0 a Ha0).
    intros j f Hj. destruct (Hat j f Hj) as [Hagg _]. apply Hagg.
    rewrite forallb_forall in Htrue. apply Htrue. eapply list_elem_of_In, list_elem_of_lookup_2, Hj.
  - assert (Hfalse : forallb is_aggregate_expr fields = false).
    { destruct (forallb is_aggregate_expr fields) eqn:E; [| reflexivity].
      exfalso. apply Hs, Hall. reflexivity. }
    split; [congruence |]. intros _.
    destruct (project_rows_spec schema fields m
                (fun row r => Forall2 (fun f v => if is_aggregate_expr f
                                                  then evaluate_aggregate_expr rows schema f = Ok v
                                                  else evaluate_expr row schema f = Ok v)
                                      fields (items r))
                ltac:(intros row r Hr; unfold project_field_row in Hr; inv_ok; subst; simpl;
                      exact (project_items_spec rows row schema m fields 0 _ Ha0 Hat))
                rows cost out cost' Hp) as [H2 Hc].
    split; [exact (eq_sym (Forall2_length _ _ _ H2)) |]. split; [exact Hc | exact H2].
Qed.

(** C6: [project_fields].  When every field is an aggregate, the output is
    one row holding, field by field, the aggregate over all child rows (and
    the cost is unchanged).  Otherwise there is one output row per child row
    (one cost tick each), whose value for a field is the aggregate over all
    child rows if the field is an aggregate and the field evaluated on that
    row otherwise. *)
Theorem project_fields_shape rows schema fields cost out cost' :
  project_fields rows schema fields cost = Ok (out, cost') ->
  (forallb is_aggregate_expr fields = true ->
     exists vs, out = [mkRow vs] /\ cost' = cost /\
       Forall2 (fun f v => evaluate_aggregate_expr rows schema f = Ok v) fields vs) /\
  (forallb is_aggregate_expr fields = false ->
     length out = length rows /\ cost' = (cost + length rows)%nat /\
     Forall2 (fun row r =>
                Forall2 (fun f v => if is_aggregate_expr f
                                    then evaluate_aggregate_expr rows schema f = Ok v
                                    else evaluate_expr row schema f = Ok v) fields (items r))
             rows out).
Proof.
  unfold project_fields. intros Hp. inv_ok. rename a into m.
  pose proof (collect_aggregates_all rows schema fields m Ha) as Hall.
  destruct (collect_aggregates_spec rows schema fields 0 ∅ m Ha) as [_ [_ Hat]].
  { intros k _. apply lookup_empty. }
  destruct (decide (size m = length fields)) as [Hs | Hs].
  - inv_ok. simplify_eq.
    assert (Htrue : forallb is_aggregate_expr fields = true) by (apply Hall; exact Hs).
    split; [| congruence].
    intros _. exists a. split; [reflexivity |]. split; [reflexivity |].
    apply (aggregate_items_spec rows schema m fields 0 a Ha0).
    intros j f Hj. destruct (Hat j f Hj) as [Hagg _]. apply Hagg.
    rewrite forallb_forall in Htrue. apply Htrue. eapply list_elem_of_In, list_elem_of_lookup_2, Hj.
  - assert (Hfalse : forallb is_aggregate_expr fields = false).
    { destruct (forallb is_aggregate_expr fields) eqn:E; [| reflexivity].
      exfalso. apply Hs, Hall. reflexivity. }
    split; [congruence |]. intros _.
    destruct (project_rows_spec schema fields m
                (fun row r => Forall2 (fun f v => if is_aggregate_expr f
                                                  then evaluate_aggregate_expr rows schema f = Ok v
                                                  else evaluate_expr row schema f = Ok v)
                                      fields (items r))
                ltac:(intros row r Hr; unfold project_field_row in Hr; inv_ok; subst; simpl;
                      exact (project_items_spec rows row schema m fields 0 _ Ha0 Hat))
                rows cost out cost' Hp) as [H2 Hc].
    split; [exact (eq_sym (Forall2_length _ _ _ H2)) |]. split; [exact Hc | exact H2].
Qed.

Lemma project_fields_shape_witness :
  exists out cost',
    project_fields animal_table_rows animal_schema
      [EColumn (col "animal_name"); sum_of (EColumn (col "animal_id"))] 0 = Ok (out, cost') /\
    length out = length animal_table_rows.
Proof.
  do 2 eexists. split; [reflexivity |].
  refine (proj1 (proj2 (project_fields_shape animal_table_rows animal_schema
                          [EColumn (col "animal_name"); sum_of (EColumn (col "animal_id"))]
                          0 _ _ _) _)).
  - reflexivity.
  - reflexivity.
Defined.

(** ** Sums over no rows *)

Lemma collect_aggregates_sums_empty schema fields : forall i acc,
  Forall (fun f => exists e args, f = EFunctionCall (Aggregate Sum) (e :: args)) fields ->
  exists m, collect_aggregates [] schema i fields acc = Ok m.
Proof.
  induction fields as [| f rest IH]; intros i acc Hf; simpl; [eauto |].
  inversion Hf as [| ? ? [e [args ->]] Hrest]; subst. simpl.
  apply IH. exact Hrest.
Qed.

Lemma aggregate_items_const (aggregate_results : gmap nat Value) (z : Value) fields : forall i,
  (forall j f, fields !! j = Some f -> aggregate_results !! (i + j)%nat = Some z) ->
  aggregate_items aggregate_results i fields = Ok (map (fun _ => z) fields).
Proof.
  induction fields as [| f rest IH]; intros i Hat; simpl; [reflexivity |].
  pose proof (Hat 0%nat f eq_refl) as H0. rewrite Nat.add_0_r in H0. rewrite H0. simpl.
  rewrite IH; [reflexivity |].
  intros j g Hj. replace (S i + j)%nat with (i + S j)%nat by lia. exact (Hat (S j) g Hj).
Qed.

(** C10: [sum(e)] over no rows is the integer 0 (not null, not an error);
    so a projection whose fields are all [sum] calls, over a child with no
    rows, still returns exactly one row, of zeros, and adds no cost. *)
Theorem sum_over_no_rows (schema : Schema) (e : Expr) (args : list Expr) :
  evaluate_function_call (Aggregate Sum) (e :: args) [] schema = Ok (VNumber (PosInt 0)) /\
  evaluate_aggregate_expr [] schema (EFunctionCall (Aggregate Sum) (e :: args))
    = Ok (VNumber (PosInt 0)) /\
  forall fields cost,
    Forall (fun f => exists e' args', f = EFunctionCall (Aggregate Sum) (e' :: args')) fields ->
    project_fields [] schema fields cost
      = Ok ([mkRow (map (fun _ => VNumber (PosInt 0)) fields)], cost).
Proof.
  split; [reflexivity |]. split; [reflexivity |].
  intros fields cost Hf.
  destruct (collect_aggregates_sums_empty schema fields 0 ∅ Hf) as [m Hm].
  destruct (collect_aggregates_spec [] schema fields 0 ∅ m Hm) as [_ [_ Hat]].
  { intros k _. apply lookup_empty. }
  assert (Hall : forallb is_aggregate_expr fields = true).
  { apply forallb_forall. intros f Hin. rewrite List.Forall_forall in Hf.
    destruct (Hf f Hin) as [e' [args' ->]]. reflexivity. }
  unfold project_fields. rewrite Hm. simpl.
  destruct (decide (size m = length fields)) as [Hs | Hs].
  - rewrite (aggregate_items_const m (VNumber (PosInt 0)) fields 0); [reflexivity |].
    intros j f Hj. destruct (Hat j f Hj) as [Hagg _].
    rewrite Forall_lookup in Hf. destruct (Hf j f Hj) as [e' [args' ->]].
    destruct (Hagg eq_refl) as [v [Hv Hl]]. simpl in Hv. injection Hv as <-. exact Hl.
  - exfalso. apply Hs. apply (collect_aggregates_all [] schema fields m Hm). exact Hall.
Qed.

Lemma sum_over_no_rows_witness :
  project_fields [] animal_schema [sum_of (EColumn (col "animal_id"))] 5
    = Ok ([mkRow [VNumber (PosInt 0)]], 5%nat).
Proof.
  refine (proj2 (proj2 (sum_over_no_rows animal_schema (EColumn (col "animal_id")) []))
            [sum_of (EColumn (col "animal_id"))] 5%nat _).
  repeat constructor. do 2 eexists. reflexivity.
Defined.

Lemma match_op_semantics_witness :
  match_op (VString "horse") GreaterThan (vint 1) = Err (ExpectedInt (VString "horse")).
Proof.
  refine (proj1 (proj1 (proj2 (proj2 (match_op_semantics (VString "horse") (vint 1))))
                   GreaterThan _) _).
  - discriminate.
  - reflexivity.
Defined.

(** ** Index scans ([from.rs]) *)

(** C1: on the static catalog, the index scan of [animal] on its
    [animal_id] index with probe key [[1]] emits all three animals, while
    [Filter(TableScan animal, animal_id = 1)] emits only the horse: the scan
    never looks at the index or the probe key. *)
Theorem index_scan_ignores_probe_key calculate_hash display_value static_rows :
  run_physical_plan calculate_hash display_value static_rows get_static_catalog
    (IndexScan "animal" None (mkIndex "animal" ["animal_id"]) [VArray [vint 1]])
  = Ok (mkQueryStep animal_schema animal_table_rows 3) /\
  run_physical_plan calculate_hash display_value static_rows get_static_catalog
    (PFilter (TableScan "animal" None)
       (EBinaryOperation (EColumn (col "animal_id")) Equals (ELiteral (vint 1))))
  = Ok (mkQueryStep animal_schema [mkRow [vint 1; VString "horse"; vint 1]] 6).
Proof. split; vm_compute; reflexivity. Qed.

(** ** Index selection ([to_physical_plan.rs]) *)

Lemma mapM_lookup_covered (bindings : gmap string Value) (cols : list string) :
  (forall c, c ∈ cols -> is_Some (bindings !! c)) ->
  exists values, mapM (fun c => bindings !! c) cols = Some values /\
                 Forall2 (fun c v => bindings !! c = Some v) cols values.
Proof.
  intros Hcov.
  assert (Hex : exists values, Forall2 (fun c v => bindings !! c = Some v) cols values).
  { induction cols as [| c cols IH]; [exists []; constructor |].
    destruct (Hcov c (list_elem_of_here c cols)) as [v Hv].
    destruct IH as [vs Hvs]; [intros c' Hc'; apply Hcov; apply list_elem_of_further; exact Hc' |].
    exists (v :: vs). constructor; assumption. }
  destruct Hex as [values Hvalues]. exists values. split; [| exact Hvalues].
  apply mapM_Some. exact Hvalues.
Qed.

Lemma mapM_lookup_uncovered (bindings : gmap string Value) (cols : list string) :
  (exists c, c ∈ cols /\ bindings !! c = None) ->
  mapM (fun c => bindings !! c) cols = None.
Proof.
  intros [c [Hin Hnone]].
  destruct (mapM (fun c => bindings !! c) cols) as [vs |] eqn:Hm; [| reflexivity].
  apply mapM_Some in Hm. exfalso.
  apply list_elem_of_In in Hin. induction Hm as [| c' v cols' vs' Hv _ IH].
  - inversion Hin.
  - destruct Hin as [-> | Hin]; [congruence | exact (IH Hin)].
Qed.

(** C3: for [Filter(From(T, alias), filter)], when the bindings of the
    filter ([columns_in_filter]) cover every column of an index of [T] and
    of no index listed before it, the planner emits
    [IndexScan(T, alias, index, [Array(v1, ..., vk)])] with [vi] the literal
    bound to the i-th column of that index; no [Filter] node is left. *)
Theorem to_physical_plan_index_scan (table_name : string) (table_alias : option string)
    (filter : FilterExpr) (indexes : ConstructedIndexes)
    (pre post : list (Index * ConstructedIndex)) (index : Index) (constructed : ConstructedIndex) :
  indexes !! table_name = Some (pre ++ (index, constructed) :: post) ->
  Forall (fun '(earlier, _) =>
            exists c, c ∈ index_columns earlier /\ columns_in_filter filter !! c = None) pre ->
  (forall c, c ∈ index_columns index -> is_Some (columns_in_filter filter !! c)) ->
  exists values,
    to_physical_plan (LFilter (LFrom table_name table_alias) filter) indexes
      = IndexScan table_name table_alias index [VArray values] /\
    Forall2 (fun c v => columns_in_filter filter !! c = Some v) (index_columns index) values.
Proof.
  intros Hix Hpre Hcov.
  destruct (mapM_lookup_covered _ _ Hcov) as [values [Hm Hvalues]].
  exists values. split; [| exact Hvalues].
  simpl. unfold find_index. rewrite Hix. clear Hix.
  induction pre as [| [earlier ci] pre IH]; simpl.
  - rewrite Hm. reflexivity.
  - inversion Hpre as [| ? ? Hearlier Hrest]; subst.
    rewrite (mapM_lookup_uncovered _ _ Hearlier).
    exact (IH Hrest).
Qed.

Lemma to_physical_plan_index_scan_witness :
  exists values,
    to_physical_plan (LFilter (LFrom "animal" None) (ColumnComparison (col "species_id") Equals (vint 1)))
      (<["animal" := [(mkIndex "animal" ["animal_id"], ∅); (mkIndex "animal" ["species_id"], ∅)]]> ∅)
    = IndexScan "animal" None (mkIndex "animal" ["species_id"]) [VArray values] /\
    Forall2 (fun c v => columns_in_filter (ColumnComparison (col "species_id") Equals (vint 1)) !! c = Some v)
      ["species_id"] values.
Proof.
  apply (to_physical_plan_index_scan "animal" None
           (ColumnComparison (col "species_id") Equals (vint 1))
           (<["animal" := [(mkIndex "animal" ["animal_id"], ∅); (mkIndex "animal" ["species_id"], ∅)]]> ∅)
           [(mkIndex "animal" ["animal_id"], ∅)] [] (mkIndex "animal" ["species_id"]) ∅).
  - reflexivity.
  - constructor; [| constructor]. exists "animal_id". split; [left | reflexivity].
  - intros c Hc. apply list_elem_of_singleton in Hc. subst. eexists. reflexivity.
Defined.

(** ** Cost accounting ([query.rs]) *)

Lemma mapM_length {E A B} (f : A -> Outcome E B) (l : list A) (k : list B) :
  mapM f l = Ok k -> length k = length l.
Proof.
  revert k. induction l as [| x l IH]; intros k Hm; simpl in Hm; inv_ok; subst; [reflexivity |].
  simpl. f_equal. apply IH. exact Ha0.
Qed.

Lemma filter_rows_cost schema filter rows : forall cost out cost',
  filter_rows schema filter rows cost = Ok (out, cost') -> cost' = (cost + length rows)%nat.
Proof.
  induction rows as [| row rest IH]; intros cost out cost' Hf; simpl in Hf.
  - simplify_eq. simpl. lia.
  - inv_ok. destruct a0 as [filtered_rows c]. simpl in Hf. simplify_eq.
    rewrite (IH _ _ _ Ha0). simpl. lia.
Qed.

Section JoinCost.

Variable calculate_hash : Value -> Z.
Variables (left_schema right_schema : Schema) (on : JoinOn) (join_type : JoinType).

Lemma join_build_cost left_rows : forall stuff cost stuff' cost',
  join_build calculate_hash left_schema on left_rows stuff cost = Ok (stuff', cost') ->
  cost' = (cost + length left_rows)%nat.
Proof.
  induction left_rows as [| lr rest IH]; intros stuff cost stuff' cost' Hb; simpl in Hb.
  - simplify_eq. simpl. lia.
  - inv_ok. rewrite (IH _ _ _ _ Hb). simpl. lia.
Qed.

Lemma join_probe_cost right_rows : forall stuff cost stuff' cost',
  join_probe calculate_hash right_schema on right_rows stuff cost = Ok (stuff', cost') ->
  cost' = (cost + length right_rows)%nat.
Proof.
  induction right_rows as [| rr rest IH]; intros stuff cost stuff' cost' Hp; simpl in Hp.
  - simplify_eq. simpl. lia.
  - inv_ok. rewrite (IH _ _ _ _ Hp). simpl. lia.
Qed.

Lemma join_emit_cost stuff left_rows : forall cost out cost',
  join_emit calculate_hash left_schema right_schema on join_type left_rows stuff cost
    = Ok (out, cost') ->
  cost' = (cost + length left_rows)%nat.
Proof.
  induction left_rows as [| lr rest IH]; intros cost out cost' He; simpl in He.
  - simplify_eq. simpl. lia.
  - inv_ok. destruct a0 as [output_rows c]. simpl in He. simplify_eq.
    rewrite (IH _ _ _ Ha0). simpl. lia.
Qed.

Lemma hash_join_cost left_rows right_rows cost step :
  hash_join calculate_hash left_schema right_schema on join_type left_rows right_rows cost
    = Ok step ->
  qs_cost step = (cost + length left_rows + length right_rows + length left_rows)%nat.
Proof.
  unfold hash_join. intros Hj. inv_ok.
  destruct a as [stuff c1]. simpl in Hj. inv_ok. rename Ha0 into Hprobe, Ha into Hbuild.
  destruct a as [stuff' c2]. simpl in Hj. inv_ok.
  destruct a as [output_rows c3]. simpl in Hj. simplify_eq. simpl.
  rewrite (join_emit_cost _ _ _ _ _ Ha), (join_probe_cost _ _ _ _ _ Hprobe),
    (join_build_cost _ _ _ _ _ Hbuild). lia.
Qed.

End JoinCost.

Lemma project_fields_cost rows schema fields cost out cost' :
  project_fields rows schema fields cost = Ok (out, cost') ->
  cost' = (cost + (if forallb is_aggregate_expr fields then 0 else length rows))%nat.
Proof.
  intros Hp. destruct (project_fields_cases rows schema fields cost out cost' Hp) as [Hall Hmixed].
  destruct (forallb is_aggregate_expr fields).
  - destruct (Hall eq_refl) as [vs [_ [-> _]]]. lia.
  - destruct (Hmixed eq_refl) as [_ [-> _]]. reflexivity.
Qed.

Lemma table_scan_cost static_rows table_name table_alias catalog step :
  table_scan static_rows table_name table_alias catalog = Ok step ->
  qs_cost step = length (qs_rows step).
Proof.
  unfold table_scan. intros Hs. inv_ok. subst. simpl.
  symmetry. exact (mapM_length _ _ _ Ha1).
Qed.

Lemma index_scan_cost static_rows table_name table_alias index values catalog step :
  index_scan static_rows table_name table_alias index values catalog = Ok step ->
  qs_cost step = length (qs_rows step).
Proof.
  unfold index_scan. intros Hs. inv_ok. subst. simpl.
  symmetry. exact (mapM_length _ _ _ Ha1).
Qed.

(** C9: the cost a plan reports is the sum of the increments of its
    operators: a scan its row count, [Filter] one per child row, [Project]
    one per child row unless every field is an aggregate (the aggregate
    pass adds nothing), [Limit] nothing, and [Join] one per left row
    (build), one per right row (probe) and one per left row (emit), on top
    of the children's costs. *)
Theorem run_physical_plan_cost calculate_hash display_value static_rows catalog
    (p : PhysicalPlan Expr) (step : QueryStep) :
  run_physical_plan calculate_hash display_value static_rows catalog p = Ok step ->
  operator_cost calculate_hash display_value static_rows catalog p = Some (qs_cost step).
Proof.
  revert step.
  induction p as [t a | t a ix vs | from IH f | from IH fields | from IH n
                 | jt l IHl r IHr on]; intros step Hrun; simpl.
  - unfold rows_of. rewrite Hrun. simpl in Hrun. rewrite (table_scan_cost _ _ _ _ _ Hrun).
    reflexivity.
  - unfold rows_of. rewrite Hrun. simpl in Hrun. rewrite (index_scan_cost _ _ _ _ _ _ _ Hrun).
    reflexivity.
  - simpl in Hrun. inv_ok. rename a into child.
    destruct a0 as [filtered_rows c]. simpl in Hrun. simplify_eq.
    rewrite (IH child Ha). unfold rows_of. rewrite Ha. simpl.
    rewrite (filter_rows_cost _ _ _ _ _ _ Ha0). reflexivity.
  - simpl in Hrun. inv_ok. rename a into child.
    destruct a0 as [projected_rows c]. simpl in Hrun. inv_ok. simplify_eq.
    rewrite (IH child Ha). unfold rows_of. rewrite Ha. simpl.
    rewrite (project_fields_cost _ _ _ _ _ _ Ha0). reflexivity.
  - simpl in Hrun. inv_ok. simplify_eq. simpl. exact (IH _ Ha).
  - simpl in Hrun. inv_ok. rename a into lstep, a0 into rstep.
    rewrite (IHl _ Ha), (IHr _ Ha0). unfold rows_of. rewrite Ha, Ha0. simpl.
    rewrite (hash_join_cost _ _ _ _ _ _ _ _ _ Hrun). f_equal; lia.
Qed.

Lemma run_physical_plan_cost_witness :
  operator_cost small_int_hash (fun _ => "") (fun _ => []) get_static_catalog
    (PJoin LeftOuter (TableScan "species" None) (TableScan "animal" None)
       (mkJoinOn (col "species_id") (col "species_id")))
  = Some 15%nat.
Proof.
  apply (run_physical_plan_cost small_int_hash (fun _ => "") (fun _ => []) get_static_catalog
           (PJoin LeftOuter (TableScan "species" None) (TableScan "animal" None)
              (mkJoinOn (col "species_id") (col "species_id")))
           (mkQueryStep (schema_extend species_schema animal_schema)
              [mkRow [vint 1; VString "mammal"; vint 1; VString "horse"; vint 1];
               mkRow [vint 1; VString "mammal"; vint 2; VString "dog"; vint 1];
               mkRow [vint 2; VString "reptile"; vint 3; VString "snake"; vint 2];
               mkRow [vint 3; VString "bird"; VNull; VNull; VNull]] 15)).
  vm_compute. reflexivity.
Defined.

(** C9 does not hold as stated: the aggregate pass of [Project] adds no
    cost.  [SELECT animal_id, sum(animal_id) FROM animal] reports 6 (3 for
    the scan, 3 for the per-row pass), not the 9 the claimed accounting
    gives. *)
Lemma project_aggregate_pass_costs_nothing :
  exists step,
    run_physical_plan small_int_hash (fun _ => "") (fun _ => []) get_static_catalog
      (PProject (TableScan "animal" None)
         [EColumn (col "animal_id"); sum_of (EColumn (col "animal_id"))]) = Ok step /\
    qs_cost step = 6%nat /\
    spec_claimed_cost small_int_hash (fun _ => "") (fun _ => []) get_static_catalog
      (PProject (TableScan "animal" None)
         [EColumn (col "animal_id"); sum_of (EColumn (col "animal_id"))]) = Some 9%nat.
Proof.
  exists (mkQueryStep (mkSchema [SColumn (col "animal_id"); SNamed "sum"])
            [mkRow [vint 1; vint 6]; mkRow [vint 2; vint 6]; mkRow [vint 3; vint 6]] 6).
  repeat split; vm_compute; reflexivity.
Qed.

(** ** Hash join ([join.rs]) *)

Lemma ok_or_Ok {E A} (o : option A) (e : E) a : ok_or o e = Ok a <-> o = Some a.
Proof. destruct o; simpl; split; congruence. Qed.

Section JoinSpec.

Variable calculate_hash : Value -> Z.
Variables (left_schema right_schema : Schema) (on : JoinOn) (join_type : JoinType).

(** Build: buckets are only added, all of them empty, one for the hash of
    every left row's key. *)
Lemma join_build_spec left_rows : forall stuff cost stuff' cost',
  join_build calculate_hash left_schema on left_rows stuff cost = Ok (stuff', cost') ->
  map_Forall (fun _ b => b = []) stuff ->
  map_Forall (fun _ b => b = []) stuff' /\
  (forall h, is_Some (stuff !! h) -> is_Some (stuff' !! h)) /\
  (forall lr, In lr left_rows ->
     exists v, left_key left_schema on lr = Ok v /\ is_Some (stuff' !! calculate_hash v)).
Proof.
  induction left_rows as [| lr rest IH]; intros stuff cost stuff' cost' Hb Hempty;
    simpl in Hb; inv_ok.
  - simplify_eq. split; [exact Hempty |]. split; [tauto | intros lr []].
  - rename a into v.
    destruct (IH _ _ _ _ Hb) as [Hempty' [Hmono Hrows]].
    { apply map_Forall_insert_2; [reflexivity | exact Hempty]. }
    split; [exact Hempty' |].
    split.
    { intros h Hh. apply Hmono. apply lookup_insert_is_Some'. right. exact Hh. }
    intros lr' [<- | Hin]; [| exact (Hrows lr' Hin)].
    exists v. split; [exact Ha |].
    apply Hmono. apply lookup_insert_is_Some'. left. reflexivity.
Qed.

(** Probe: a bucket holds, besides what it held, exactly the right rows
    whose key hashes to it; no bucket is added. *)
Lemma join_probe_spec right_rows : forall stuff cost stuff' cost',
  join_probe calculate_hash right_schema on right_rows stuff cost = Ok (stuff', cost') ->
  forall h,
    (stuff !! h = None -> stuff' !! h = None) /\
    (forall b, stuff !! h = Some b ->
       exists b', stuff' !! h = Some b' /\
         forall rr, In rr b' <->
           In rr b \/ (In rr right_rows /\
                       exists w, right_key right_schema on rr = Ok w /\ calculate_hash w = h)).
Proof.
  induction right_rows as [| rr rest IH]; intros stuff cost stuff' cost' Hp h;
    simpl in Hp; inv_ok.
  - simplify_eq. split; [tauto |]. intros b Hb. exists b. split; [exact Hb |].
    intros rr. simpl. tauto.
  - rename a into w.
    set (stuff1 := match stuff !! calculate_hash w with
                   | Some its => <[calculate_hash w := its ++ [rr]]> stuff
                   | None => stuff
                   end) in Hp.
    destruct (IH _ _ _ _ Hp h) as [Hnone Hsome].
    assert (Hstep : (stuff !! h = None -> stuff1 !! h = None) /\
                    (forall b, stuff !! h = Some b ->
                       exists b1, stuff1 !! h = Some b1 /\
                         forall r, In r b1 <-> In r b \/ (r = rr /\ calculate_hash w = h))).
    { unfold stuff1. destruct (stuff !! calculate_hash w) as [its |] eqn:Hw.
      - destruct (decide (calculate_hash w = h)) as [<- | Hne].
        + split; [congruence |]. intros b Hb. rewrite Hw in Hb. injection Hb as <-.
          exists (its ++ [rr]). rewrite lookup_insert_eq. split; [reflexivity |].
          intros r. rewrite in_app_iff. simpl. intuition congruence.
        + rewrite lookup_insert_ne by congruence.
          split; [tauto |]. intros b Hb. exists b. split; [exact Hb |]. intros r. intuition.
      - split; [tauto |]. intros b Hb. exists b. split; [exact Hb |].
        intros r. split; [tauto |]. intros [Hr | [_ Heq]]; [exact Hr |].
        subst h. congruence. }
    destruct Hstep as [Hstep_none Hstep_some].
    split; [intros Hh; apply Hnone, Hstep_none, Hh |].
    intros b Hb. destruct (Hstep_some b Hb) as [b1 [Hb1 Hmem1]].
    destruct (Hsome b1 Hb1) as [b' [Hb' Hmem']]. exists b'. split; [exact Hb' |].
    intros r. rewrite Hmem', Hmem1. simpl. split.
    + intros [[Hr | [-> Heq]] | [Hin Hkey]].
      * left. exact Hr.
      * right. split; [left; reflexivity |]. exists w. split; [exact Ha | exact Heq].
      * right. split; [right; exact Hin | exact Hkey].
    + intros [Hr | [[<- | Hin] Hkey]].
      * left. left. exact Hr.
      * left. right. destruct Hkey as [w' [Hw' Heq]]. rewrite Ha in Hw'.
        injection Hw' as <-. split; [reflexivity | exact Heq].
      * right. split; [exact Hin | exact Hkey].
Qed.

(** Emit: the output is, left row by left row in order, what its bucket
    gives. *)
Lemma join_emit_spec stuff left_rows : forall cost out cost',
  join_emit calculate_hash left_schema right_schema on join_type left_rows stuff cost
    = Ok (out, cost') ->
  exists chunks, out = concat chunks /\
    Forall2 (fun lr chunk => exists v, left_key left_schema on lr = Ok v /\
               chunk = emit_for right_schema join_type lr (stuff !! calculate_hash v))
            left_rows chunks.
Proof.
  induction left_rows as [| lr rest IH]; intros cost out cost' He; simpl in He; inv_ok.
  - simplify_eq. exists []. split; [reflexivity | constructor].
  - destruct a0 as [output_rows c]. simpl in He. simplify_eq.
    destruct (IH _ _ _ Ha0) as [chunks [-> Hchunks]].
    eexists (_ :: chunks). split; [reflexivity |].
    constructor; [| exact Hchunks]. exists a. split; [exact Ha | reflexivity].
Qed.

(** [hash_join]: the output is, left row by left row in order, what
    [emit_for] makes of the right rows whose key hashes as the left key. *)
Lemma hash_join_spec left_rows right_rows cost step :
  hash_join calculate_hash left_schema right_schema on join_type left_rows right_rows cost
    = Ok step ->
  exists chunks, qs_rows step = concat chunks /\
    Forall2 (fun lr chunk =>
               exists v bucket,
                 left_key left_schema on lr = Ok v /\
                 chunk = emit_for right_schema join_type lr (Some bucket) /\
                 forall rr, In rr bucket <->
                   In rr right_rows /\
                   exists w, right_key right_schema on rr = Ok w /\
                             calculate_hash w = calculate_hash v)
            left_rows chunks.
Proof.
  unfold hash_join. intros Hj. inv_ok.
  destruct a as [stuff c1]. simpl in Hj. inv_ok. rename Ha0 into Hprobe, Ha into Hbuild.
  destruct a as [stuff' c2]. simpl in Hj. inv_ok.
  destruct a as [output_rows c3]. simpl in Hj. simplify_eq. simpl.
  destruct (join_build_spec _ _ _ _ _ Hbuild) as [Hempty [_ Hrows]].
  { apply map_Forall_empty. }
  destruct (join_emit_spec _ _ _ _ _ Ha) as [chunks [-> Hchunks]].
  exists chunks. split; [reflexivity |].
  clear Hbuild Ha. induction Hchunks as [| lr chunk rest chunks' [v [Hv ->]] _ IH]; constructor.
  - destruct (Hrows lr (or_introl eq_refl)) as [v' [Hv' [b Hb]]].
    rewrite Hv in Hv'. injection Hv' as <-.
    pose proof (map_Forall_lookup_1 _ _ _ _ Hempty Hb) as ->.
    destruct (join_probe_spec _ _ _ _ _ Hprobe (calculate_hash v)) as [_ Hsome].
    destruct (Hsome [] Hb) as [b' [Hb' Hmem]].
    exists v, b'. split; [exact Hv |]. split; [rewrite Hb'; reflexivity |].
    intros rr. rewrite Hmem. simpl. tauto.
  - apply IH. intros lr' Hin. apply Hrows. right. exact Hin.
Qed.

(** Probe, exactly: a bucket present before the probe ends up extended by
    the right rows whose key hashes to it, in right order. *)
Lemma join_probe_buckets right_rows : forall stuff cost stuff' cost',
  join_probe calculate_hash right_schema on right_rows stuff cost = Ok (stuff', cost') ->
  forall h b, stuff !! h = Some b ->
    stuff' !! h =
      Some (b ++ List.filter (fun rr => match get_column rr (on_right on) right_schema with
                                        | Some w => bool_decide (calculate_hash w = h)
                                        | None => false
                                        end) right_rows).
Proof.
  induction right_rows as [| rr rest IH]; intros stuff cost stuff' cost' Hp h b Hb;
    simpl in Hp; inv_ok.
  - simplify_eq. rewrite app_nil_r. exact Hb.
  - rename a into w. unfold right_key in Ha. apply ok_or_Ok in Ha.
    cbn [List.filter]. rewrite Ha. case_bool_decide as Heq.
    + subst h. rewrite Hb in Hp.
      rewrite (IH _ _ _ _ Hp (calculate_hash w) (b ++ [rr])) by apply lookup_insert_eq.
      rewrite <- app_assoc. reflexivity.
    + apply (IH _ _ _ _ Hp).
      destruct (stuff !! calculate_hash w); [rewrite lookup_insert_ne by congruence |]; exact Hb.
Qed.

(** [hash_join], exactly: one chunk per left row, in order; the chunk is
    what [emit_for] makes of the right rows, in right order, whose key has
    the hash of the left row's key. *)
Lemma hash_join_buckets left_rows right_rows cost step :
  hash_join calculate_hash left_schema right_schema on join_type left_rows right_rows cost
    = Ok step ->
  exists chunks, qs_rows step = concat chunks /\
    Forall2 (fun lr chunk =>
               exists v, get_column lr (on_left on) left_schema = Some v /\
                 chunk = emit_for right_schema join_type lr
                   (Some (List.filter
                            (fun rr => match get_column rr (on_right on) right_schema with
                                       | Some w => bool_decide (calculate_hash w = calculate_hash v)
                                       | None => false
                                       end) right_rows)))
            left_rows chunks.
Proof.
  unfold hash_join. intros Hj. inv_ok.
  destruct a as [stuff c1]. simpl in Hj. inv_ok. rename Ha0 into Hprobe, Ha into Hbuild.
  destruct a as [stuff' c2]. simpl in Hj. inv_ok.
  destruct a as [output_rows c3]. simpl in Hj. simplify_eq. simpl.
  destruct (join_build_spec _ _ _ _ _ Hbuild) as [Hempty [_ Hrows]].
  { apply map_Forall_empty. }
  destruct (join_emit_spec _ _ _ _ _ Ha) as [chunks [-> Hchunks]].
  exists chunks. split; [reflexivity |].
  clear Hbuild Ha. induction Hchunks as [| lr chunk rest chunks' [v [Hv ->]] _ IH]; constructor.
  - destruct (Hrows lr (or_introl eq_refl)) as [v' [Hv' [b Hb]]].
    rewrite Hv in Hv'. injection Hv' as <-.
    pose proof (map_Forall_lookup_1 _ _ _ _ Hempty Hb) as ->.
    exists v. split; [unfold left_key in Hv; apply ok_or_Ok in Hv; exact Hv |].
    rewrite (join_probe_buckets _ _ _ _ _ Hprobe _ _ Hb). reflexivity.
  - apply IH. intros lr' Hin. apply Hrows. right. exact Hin.
Qed.

End JoinSpec.

Lemma Forall2_In_r {A B} (P : A -> B -> Prop) l1 l2 y :
  Forall2 P l1 l2 -> In y l2 -> exists x, In x l1 /\ P x y.
Proof.
  induction 1 as [| x y' l1' l2' Hxy _ IH]; intros Hin; [destruct Hin |].
  destruct Hin as [<- | Hin].
  - exists x. split; [left; reflexivity | exact Hxy].
  - destruct (IH Hin) as [x' [Hx' HP]]. exists x'. split; [right; exact Hx' | exact HP].
Qed.

Lemma map_const_repeat {A B} (c : B) (l : list A) :
  map (fun _ => c) l = repeat c (length l).
Proof. induction l as [| x l IH]; simpl; [reflexivity | rewrite IH; reflexivity]. Qed.

(** C2, amended: the join matches keys by their hash.  If no two distinct
    key values of the left and right rows have the same hash, every row of
    an [Inner] join is a left row followed by a right row whose join keys
    are the same value. *)
Theorem hash_join_inner_keys_match (calculate_hash : Value -> Z)
    (left_schema right_schema : Schema) (on : JoinOn)
    (left_rows right_rows : list Row) (cost : nat) (step : QueryStep) :
  hash_join calculate_hash left_schema right_schema on Inner left_rows right_rows cost
    = Ok step ->
  (forall lr rr v w, In lr left_rows -> In rr right_rows ->
     get_column lr (on_left on) left_schema = Some v ->
     get_column rr (on_right on) right_schema = Some w ->
     calculate_hash v = calculate_hash w -> v = w) ->
  forall row, In row (qs_rows step) ->
    exists lr rr v, In lr left_rows /\ In rr right_rows /\ row = row_extend lr rr /\
      get_column lr (on_left on) left_schema = Some v /\
      get_column rr (on_right on) right_schema = Some v.
Proof.
  intros Hj Hinj row Hrow.
  destruct (hash_join_spec _ _ _ _ _ _ _ _ _ Hj) as [chunks [Hrows Hchunks]].
  rewrite Hrows in Hrow. apply in_concat in Hrow as [chunk [Hchunk Hin]].
  destruct (Forall2_In_r _ _ _ _ Hchunks Hchunk) as [lr [Hlr [v [bucket [Hv [-> Hmem]]]]]].
  destruct bucket as [| r0 rs]; simpl in Hin; [destruct Hin |].
  change (In row (map (fun item => row_extend lr item) (r0 :: rs))) in Hin.
  apply in_map_iff in Hin as [rr [<- Hrr]].
  destruct (proj1 (Hmem rr) Hrr) as [Hrr_in [w [Hw Hh]]].
  unfold left_key in Hv. unfold right_key in Hw. apply ok_or_Ok in Hv, Hw.
  pose proof (Hinj lr rr v w Hlr Hrr_in Hv Hw (eq_sym Hh)) as <-.
  exists lr, rr, v. repeat split; assumption.
Qed.

(** C4, amended: a [LeftOuter] join that succeeds emits one chunk per left
    row, in left scan order.  A left row whose key hash is the hash of no
    right row's key gives exactly one row: its items followed by
    [|rightSchema|] nulls.  Otherwise it gives, for each right row in
    right scan order whose key has the same hash as its key, its items
    followed by that row's items; so a left row with no right row of an
    equal key, but with one of a same-hash key, is joined with that row
    instead of being padded. *)
Theorem hash_join_left_outer_padding (calculate_hash : Value -> Z)
    (left_schema right_schema : Schema) (on : JoinOn)
    (left_rows right_rows : list Row) (cost : nat) (step : QueryStep) :
  hash_join calculate_hash left_schema right_schema on LeftOuter left_rows right_rows cost
    = Ok step ->
  exists chunks, qs_rows step = concat chunks /\
    Forall2 (fun lr chunk =>
               exists v, get_column lr (on_left on) left_schema = Some v /\
                 chunk =
                   match List.filter
                           (fun rr => match get_column rr (on_right on) right_schema with
                                      | Some w => bool_decide (calculate_hash w = calculate_hash v)
                                      | None => false
                                      end) right_rows with
                   | [] => [mkRow (items lr ++ repeat VNull (length (columns right_schema)))]
                   | same_hash => map (row_extend lr) same_hash
                   end)
            left_rows chunks.
Proof.
  intros Hj.
  destruct (hash_join_buckets _ _ _ _ _ _ _ _ _ Hj) as [chunks [Hrows Hchunks]].
  exists chunks. split; [exact Hrows |]. clear Hj Hrows.
  induction Hchunks as [| lr chunk l1 l2 [v [Hv ->]] _ IH]; constructor; [| exact IH].
  exists v. split; [exact Hv |]. unfold emit_for.
  destruct (List.filter _ right_rows) as [| r rs]; [rewrite map_const_repeat |]; reflexivity.
Qed.

Lemma hash_join_inner_keys_match_witness :
  exists lr rr v,
    In lr animal_table_rows /\ In rr species_table_rows /\
    mkRow [vint 1; VString "horse"; vint 1; vint 1; VString "mammal"] = row_extend lr rr /\
    get_column lr (on_left (mkJoinOn (col "species_id") (col "species_id"))) animal_schema = Some v /\
    get_column rr (on_right (mkJoinOn (col "species_id") (col "species_id"))) species_schema = Some v.
Proof.
  apply (hash_join_inner_keys_match calculate_hash animal_schema species_schema
           (mkJoinOn (col "species_id") (col "species_id")) animal_table_rows species_table_rows 0
           (mkQueryStep (schema_extend animal_schema species_schema)
              [mkRow [vint 1; VString "horse"; vint 1; vint 1; VString "mammal"];
               mkRow [vint 2; VString "dog"; vint 1; vint 1; VString "mammal"];
               mkRow [vint 3; VString "snake"; vint 2; vint 2; VString "reptile"]] 9)).
  - vm_compute. reflexivity.
  - intros lr rr v w Hl Hr Hv Hw Hh.
    destruct Hl as [<- | [<- | [<- | []]]]; destruct Hr as [<- | [<- | [<- | []]]];
      vm_compute in Hv, Hw; injection Hv as <-; injection Hw as <-;
      vm_compute in Hh; first [reflexivity | discriminate].
  - left. reflexivity.
Defined.

(** In [SELECT * FROM species LEFT OUTER JOIN animal ON species_id], with the
    program's hash: mammal is joined with horse and dog, reptile with snake,
    and bird, which no animal has, is padded with three nulls. *)
Lemma hash_join_left_outer_padding_witness :
  exists chunks,
    [mkRow [vint 1; VString "mammal"; vint 1; VString "horse"; vint 1];
     mkRow [vint 1; VString "mammal"; vint 2; VString "dog"; vint 1];
     mkRow [vint 2; VString "reptile"; vint 3; VString "snake"; vint 2];
     mkRow [vint 3; VString "bird"; VNull; VNull; VNull]] = concat chunks /\
    chunks = [[mkRow [vint 1; VString "mammal"; vint 1; VString "horse"; vint 1];
               mkRow [vint 1; VString "mammal"; vint 2; VString "dog"; vint 1]];
              [mkRow [vint 2; VString "reptile"; vint 3; VString "snake"; vint 2]];
              [mkRow [vint 3; VString "bird"; VNull; VNull; VNull]]].
Proof.
  destruct (hash_join_left_outer_padding calculate_hash species_schema animal_schema
              (mkJoinOn (col "species_id") (col "species_id")) species_table_rows animal_table_rows 0
              (mkQueryStep (schema_extend species_schema animal_schema)
                 [mkRow [vint 1; VString "mammal"; vint 1; VString "horse"; vint 1];
                  mkRow [vint 1; VString "mammal"; vint 2; VString "dog"; vint 1];
                  mkRow [vint 2; VString "reptile"; vint 3; VString "snake"; vint 2];
                  mkRow [vint 3; VString "bird"; VNull; VNull; VNull]] 9))
    as [chunks [Hrows Hchunks]].
  - vm_compute. reflexivity.
  - exists chunks. split; [exact Hrows |].
    unfold species_table_rows in Hchunks.
    apply Forall2_cons_inv_l in Hchunks as [c1 [cs1 [[v1 [Hv1 ->]] [Hchunks ->]]]].
    apply Forall2_cons_inv_l in Hchunks as [c2 [cs2 [[v2 [Hv2 ->]] [Hchunks ->]]]].
    apply Forall2_cons_inv_l in Hchunks as [c3 [cs3 [[v3 [Hv3 ->]] [Hchunks ->]]]].
    apply Forall2_nil_inv_l in Hchunks as ->.
    vm_compute in Hv1, Hv2, Hv3.
    injection Hv1 as <-. injection Hv2 as <-. injection Hv3 as <-.
    vm_compute. reflexivity.
Defined.

(** C2 does not hold as stated: keys are matched by hash only, and the
    program's hash does not tell the integer [0] from the float [0.0]
    (serde_json hashes a zero float as the u64 [0], with no variant tag).
    So the [Inner] join of [[0]] with [[0.0]] emits [[0; 0.0]], although
    [0] and [0.0] are unequal values. *)
Lemma colliding_keys_inner_join :
  calculate_hash (vint 0) = calculate_hash (VNumber (Float 0)) /\
  hash_join calculate_hash (mkSchema [SColumn (col "k")]) (mkSchema [SColumn (col "k")])
    (mkJoinOn (col "k") (col "k")) Inner [mkRow [vint 0]] [mkRow [VNumber (Float 0)]] 0
  = Ok (mkQueryStep (mkSchema [SColumn (col "k"); SColumn (col "k")])
          [mkRow [vint 0; VNumber (Float 0)]] 3) /\
  vint 0 <> VNumber (Float 0) /\
  value_eqb (vint 0) (VNumber (Float 0)) = false.
Proof.
  split; [vm_compute; reflexivity |].
  split; [vm_compute; reflexivity |].
  split; [discriminate | vm_compute; reflexivity].
Qed.

(** C4 does not hold as stated: the left row [[0]] has no right row of an
    equal key, yet the [LeftOuter] join of [[0]] with [[0.0]] does not pad
    it with a null; it joins it with [[0.0]], whose key has the same hash. *)
Lemma colliding_keys_left_outer_join :
  hash_join calculate_hash (mkSchema [SColumn (col "k")]) (mkSchema [SColumn (col "k")])
    (mkJoinOn (col "k") (col "k")) LeftOuter [mkRow [vint 0]] [mkRow [VNumber (Float 0)]] 0
  = Ok (mkQueryStep (mkSchema [SColumn (col "k"); SColumn (col "k")])
          [mkRow [vint 0; VNumber (Float 0)]] 3) /\
  value_eqb (vint 0) (VNumber (Float 0)) = false.
Proof. split; vm_compute; reflexivity. Qed.

(** ** Sorting ([order_by.rs]) *)

Section SortSpec.

Context {A : Type}.
Variable compare : A -> A -> Outcome QueryError comparison.

Lemma insert_tail_perm x p c r c' :
  insert_tail compare x p c = Ok (r, c') -> Permutation r (x :: p).
Proof.
  revert c r c'. induction p as [|y ys IH]; intros c r c' H; simpl in H.
  - injection H as <- <-. reflexivity.
  - inv_ok. destruct a as [| |].
    + inv_ok; simplify_eq. reflexivity.
    + apply bind_Ok in H as [[r0 c0] [Hi H]]. simplify_eq.
      rewrite (IH _ _ _ Hi). apply perm_swap.
    + inv_ok; simplify_eq. reflexivity.
Qed.

Lemma insertion_sort_rev_perm rows p c r c' :
  insertion_sort_rev compare rows p c = Ok (r, c') -> Permutation r (rev rows ++ p).
Proof.
  revert p c. induction rows as [|row rest IH]; intros p c H; simpl in H.
  - simplify_eq. reflexivity.
  - inv_ok. destruct a as [p1 c1]. rewrite (IH _ _ H). simpl.
    rewrite <- app_assoc. apply Permutation_app_head.
    apply (insert_tail_perm _ _ _ _ _ Ha).
Qed.

(** The comparisons made by [insert_tail] are those of the sorted prefix
    it walks: each answer [Lt] moves the new element one place further. *)
Lemma insert_tail_head x p c r c' :
  insert_tail compare x p c = Ok (r, c') ->
  r = x :: p \/ exists y ys r', p = y :: ys /\ r = y :: r'.
Proof.
  destruct p as [|y ys]; simpl; intros H.
  - simplify_eq. left; reflexivity.
  - inv_ok. destruct a as [| |].
    + inv_ok; simplify_eq. left; reflexivity.
    + apply bind_Ok in H as [[r0 c0] [Hi H]]. simplify_eq. right; eauto.
    + inv_ok; simplify_eq. left; reflexivity.
Qed.

Section Inversions.

Variable key : A -> nat.

(** In the reversed prefix, an element [a] ahead of [b] is after [b] in
    the output; if [a] came earlier in the input, [b] was moved past it,
    which only a [Lt] answer does. *)
Lemma insert_tail_inversions x p c r c' :
  insert_tail compare x p c = Ok (r, c') ->
  Forall (fun y => (key y < key x)%nat) p ->
  ForallOrdPairs (fun a b => (key a < key b)%nat -> compare b a = Ok Lt) p ->
  ForallOrdPairs (fun a b => (key a < key b)%nat -> compare b a = Ok Lt) r.
Proof.
  revert c r c'. induction p as [|y ys IH]; intros c r c' H Hlt Hp; simpl in H.
  - simplify_eq. repeat constructor.
  - inv_ok. inversion Hp as [|? ? Hy Hys]; subst. inversion Hlt as [|? ? Hyx Hlt']; subst.
    destruct a as [| |].
    + inv_ok; simplify_eq. constructor; [|exact Hp].
      constructor; [lia|]. eapply List.Forall_impl; [|exact Hlt']. simpl; lia.
    + apply bind_Ok in H as [[r0 c0] [Hi H]]. simplify_eq. constructor.
      * apply List.Forall_forall. intros z Hz.
        apply (Permutation_in _ (insert_tail_perm _ _ _ _ _ Hi)) in Hz as [<- | Hz].
        -- intros _. exact Ha.
        -- exact (proj1 (List.Forall_forall _ _) Hy z Hz).
      * exact (IH _ _ _ Hi Hlt' Hys).
    + inv_ok; simplify_eq. constructor; [|exact Hp].
      constructor; [lia|]. eapply List.Forall_impl; [|exact Hlt']. simpl; lia.
Qed.

Lemma insertion_sort_rev_inversions rows p c r c' :
  insertion_sort_rev compare rows p c = Ok (r, c') ->
  ForallOrdPairs (fun a b => (key a < key b)%nat) rows ->
  (forall x y, In x rows -> In y p -> (key y < key x)%nat) ->
  ForallOrdPairs (fun a b => (key a < key b)%nat -> compare b a = Ok Lt) p ->
  ForallOrdPairs (fun a b => (key a < key b)%nat -> compare b a = Ok Lt) r.
Proof.
  revert p c. induction rows as [|row rest IH]; intros p c H Hrows Hkeys Hp; simpl in H.
  - simplify_eq. exact Hp.
  - apply bind_Ok in H as [[p1 c1] [Hi H]].
    inversion Hrows as [|? ? Hrow Hrest]; subst.
    apply (IH _ _ H Hrest).
    + intros z y Hz Hy.
      apply (Permutation_in _ (insert_tail_perm _ _ _ _ _ Hi)) in Hy as [<- | Hy].
      * exact (proj1 (List.Forall_forall _ _) Hrow z Hz).
      * apply Hkeys; [right; exact Hz | exact Hy].
    + apply (insert_tail_inversions _ _ _ _ _ Hi); [|exact Hp].
      apply List.Forall_forall. intros y Hy. apply Hkeys; [left; reflexivity | exact Hy].
Qed.

End Inversions.

Section Adjacent.

Hypothesis compare_antisym : forall a b o, compare a b = Ok o -> compare b a = Ok (CompOpp o).

(** In the reversed prefix, no element is strictly less than the one
    after it (its predecessor in the output). *)
Lemma insert_tail_sorted x p c r c' :
  insert_tail compare x p c = Ok (r, c') ->
  Sorted (fun a b => compare a b <> Ok Lt) p ->
  Sorted (fun a b => compare a b <> Ok Lt) r.
Proof.
  revert c r c'. induction p as [|y ys IH]; intros c r c' H Hp; simpl in H.
  - simplify_eq. repeat constructor.
  - inv_ok. destruct a as [| |].
    + inv_ok; simplify_eq. constructor; [exact Hp|]. constructor. rewrite Ha. discriminate.
    + apply bind_Ok in H as [[r0 c0] [Hi H]]. simplify_eq.
      apply Sorted_inv in Hp as [Hys Hhd]. constructor; [exact (IH _ _ _ Hi Hys)|].
      destruct (insert_tail_head _ _ _ _ _ Hi) as [-> | [y' [ys' [r' [-> ->]]]]].
      * constructor. rewrite (compare_antisym _ _ _ Ha). discriminate.
      * inversion Hhd; subst. constructor. assumption.
    + inv_ok; simplify_eq. constructor; [exact Hp|]. constructor. rewrite Ha. discriminate.
Qed.

Lemma insertion_sort_rev_sorted rows p c r c' :
  insertion_sort_rev compare rows p c = Ok (r, c') ->
  Sorted (fun a b => compare a b <> Ok Lt) p ->
  Sorted (fun a b => compare a b <> Ok Lt) r.
Proof.
  revert p c. induction rows as [|row rest IH]; intros p c H Hp; simpl in H.
  - simplify_eq. exact Hp.
  - apply bind_Ok in H as [[p1 c1] [Hi H]].
    exact (IH _ _ H (insert_tail_sorted _ _ _ _ _ Hi Hp)).
Qed.

End Adjacent.

End SortSpec.

Lemma ForallOrdPairs_snoc {B} (R : B -> B -> Prop) l x :
  ForallOrdPairs R l -> Forall (fun a => R a x) l -> ForallOrdPairs R (l ++ [x]).
Proof.
  induction l as [|a l IH]; simpl; intros Hl Hx.
  - repeat constructor.
  - inversion Hl as [|? ? Ha Hl']; subst. inversion Hx as [|? ? Hax Hx']; subst.
    constructor; [|exact (IH Hl' Hx')].
    apply List.Forall_app; split; [exact Ha | constructor; [exact Hax | constructor]].
Qed.

Lemma ForallOrdPairs_rev {B} (R : B -> B -> Prop) l :
  ForallOrdPairs R l -> ForallOrdPairs (fun a b => R b a) (rev l).
Proof.
  induction l as [|a l IH]; simpl; intros Hl.
  - constructor.
  - inversion Hl as [|? ? Ha Hl']; subst.
    apply ForallOrdPairs_snoc; [exact (IH Hl')|]. apply List.Forall_rev. exact Ha.
Qed.

Lemma Sorted_snoc {B} (R : B -> B -> Prop) l x :
  Sorted R l -> (forall l' z, l = l' ++ [z] -> R z x) -> Sorted R (l ++ [x]).
Proof.
  induction l as [|a l IH]; simpl; intros Hl Hx.
  - repeat constructor.
  - apply Sorted_inv in Hl as [Hl Hhd]. constructor.
    + apply IH; [exact Hl|]. intros l' z ->. apply (Hx (a :: l')). reflexivity.
    + destruct l as [|b l]; simpl.
      * constructor. apply (Hx []). reflexivity.
      * inversion Hhd; subst. constructor. assumption.
Qed.

Lemma Sorted_rev {B} (R : B -> B -> Prop) l :
  Sorted R l -> Sorted (fun a b => R b a) (rev l).
Proof.
  induction l as [|a l IH]; simpl; intros Hl.
  - constructor.
  - apply Sorted_inv in Hl as [Hl Hhd]. apply Sorted_snoc; [exact (IH Hl)|].
    intros l' z Hrev. destruct l as [|b l]; simpl in Hrev.
    + destruct l'; simpl in Hrev; [discriminate | destruct l'; discriminate].
    + apply app_inj_tail in Hrev as [_ ->]. inversion Hhd; subst. assumption.
Qed.

Section SortMap.

Context {A B : Type} (f : A -> B).
Variables (compare : A -> A -> Outcome QueryError comparison)
          (compareB : B -> B -> Outcome QueryError comparison).
Hypothesis compare_f : forall x y, compare x y = compareB (f x) (f y).

(** Sorting the images under [f] makes the same comparisons as sorting
    the elements: its result is the image of theirs. *)
Lemma insert_tail_map x p c r c' :
  insert_tail compareB (f x) (map f p) c = Ok (r, c') ->
  exists r0, insert_tail compare x p c = Ok (r0, c') /\ r = map f r0.
Proof.
  revert c r c'. induction p as [|y ys IH]; intros c r c' H; simpl in H |- *.
  - simplify_eq. eauto.
  - rewrite compare_f. inv_ok. rewrite Ha. simpl. destruct a as [| |].
    + inv_ok; simplify_eq. exists (x :: y :: ys); auto.
    + apply bind_Ok in H as [[r0 c0] [Hi H]]. simplify_eq.
      destruct (IH _ _ _ Hi) as [r1 [-> ->]]. exists (y :: r1). auto.
    + inv_ok; simplify_eq. exists (x :: y :: ys); auto.
Qed.

Lemma insertion_sort_rev_map rows p c r c' :
  insertion_sort_rev compareB (map f rows) (map f p) c = Ok (r, c') ->
  exists r0, insertion_sort_rev compare rows p c = Ok (r0, c') /\ r = map f r0.
Proof.
  revert p c. induction rows as [|row rest IH]; intros p c H; simpl in H |- *.
  - simplify_eq. eauto.
  - apply bind_Ok in H as [[p1 c1] [Hi H]].
    destruct (insert_tail_map _ _ _ _ _ Hi) as [p2 [Hp2 ->]]. rewrite Hp2. simpl.
    exact (IH _ _ H).
Qed.

Lemma sort_by_map rows c out c' :
  sort_by compareB (map f rows) c = Ok (out, c') ->
  exists out0, sort_by compare rows c = Ok (out0, c') /\ out = map f out0.
Proof.
  unfold sort_by. intros H. apply bind_Ok in H as [[r c1] [Hs H]]. simplify_eq.
  destruct (insertion_sort_rev_map rows [] _ _ _ Hs) as [r0 [Hr0 ->]].
  rewrite Hr0. simpl. exists (rev r0). split; [reflexivity | symmetry; apply map_rev].
Qed.

End SortMap.

(** [compare_values] is antisymmetric on the kinds it orders. *)
Lemma compare_values_antisym a b o :
  compare_values a b = Ok o -> compare_values b a = Ok (CompOpp o).
Proof.
  destruct a, b; cbn -[as_i64 number_as_f64]; intros H; try discriminate; simplify_eq.
  - reflexivity.
  - destruct b, b0; reflexivity.
  - destruct (as_i64 (VNumber n)), (as_i64 (VNumber n0));
      [simplify_eq; rewrite Z.compare_antisym; reflexivity| | |];
      destruct (number_as_f64 n), (number_as_f64 n0); simplify_eq;
      try reflexivity; unfold f64_total_cmp; rewrite Z.compare_antisym; reflexivity.
  - rewrite String.compare_antisym. reflexivity.
Qed.

Lemma order_fold_antisym schema row_a row_b exprs o r :
  order_fold schema row_a row_b o exprs = Ok r ->
  order_fold schema row_b row_a (CompOpp o) exprs = Ok (CompOpp r).
Proof.
  revert o. induction exprs as [|e rest IH]; intros o H; simpl in H |- *.
  - simplify_eq. reflexivity.
  - apply bind_Ok in H as [o1 [Hn H]]. destruct (decide (o = Eq)) as [->|Hne].
    + apply bind_Ok in Hn as [va [Hva Hn]]. apply bind_Ok in Hn as [vb [Hvb Hn]].
      apply bind_Ok in Hn as [o0 [Ho0 Hn]]. simplify_eq. simpl.
      rewrite Hvb, Hva. simpl. rewrite (compare_values_antisym _ _ _ Ho0). simpl.
      replace (match ob_order e with Asc => CompOpp o0 | Desc => flip (CompOpp o0) end)
        with (CompOpp (match ob_order e with Asc => o0 | Desc => flip o0 end))
        by (destruct (ob_order e), o0; reflexivity).
      exact (IH _ H).
    + simplify_eq. rewrite decide_False by (destruct o1; simpl; congruence).
      simpl. exact (IH _ H).
Qed.

Lemma order_compare_antisym schema exprs row_a row_b o :
  order_compare schema exprs row_a row_b = Ok o ->
  order_compare schema exprs row_b row_a = Ok (CompOpp o).
Proof. apply (order_fold_antisym schema row_a row_b exprs Eq). Qed.

Lemma order_fold_decided schema row_a row_b exprs o :
  o <> Eq -> order_fold schema row_a row_b o exprs = Ok o.
Proof.
  intros Hne. induction exprs as [|e rest IH]; simpl; [reflexivity|].
  rewrite decide_False by exact Hne. simpl. exact IH.
Qed.

Lemma order_compare_spec schema exprs row_a row_b :
  order_compare schema exprs row_a row_b = spec_lex_compare schema exprs row_a row_b.
Proof.
  unfold order_compare. induction exprs as [|e rest IH]; simpl; [reflexivity|].
  destruct (unwrap (get_column row_a (ob_column e) schema)) as [va| |]; simpl; try reflexivity.
  destruct (unwrap (get_column row_b (ob_column e) schema)) as [vb| |]; simpl; try reflexivity.
  destruct (compare_values va vb) as [[| |]| |]; simpl; try reflexivity.
  - destruct (ob_order e); exact IH.
  - apply order_fold_decided. destruct (ob_order e); discriminate.
  - apply order_fold_decided. destruct (ob_order e); discriminate.
Qed.

Lemma ForallOrdPairs_lookup {B} (R : B -> B -> Prop) l k1 k2 a b :
  ForallOrdPairs R l -> l !! k1 = Some a -> l !! k2 = Some b -> (k1 < k2)%nat -> R a b.
Proof.
  intros Hl. revert k1 k2. induction Hl as [|x l Hx Hl IH]; intros k1 k2 H1 H2 Hk;
    [discriminate|].
  destruct k1 as [|k1], k2 as [|k2]; simpl in H1, H2; try lia.
  - simplify_eq. apply (proj1 (List.Forall_forall _ _) Hx).
    apply list_elem_of_In. eapply list_elem_of_lookup_2. exact H2.
  - apply (IH k1 k2 H1 H2). lia.
Qed.

(** Rows tagged with their input positions. *)
Lemma map_snd_combine_seq {B} k (l : list B) : map snd (combine (seq k (length l)) l) = l.
Proof.
  revert k. induction l as [|x l IH]; intros k; simpl; [reflexivity|]. f_equal. apply IH.
Qed.

Lemma combine_seq_increasing {B} k (l : list B) :
  ForallOrdPairs (fun a b => (fst a < fst b)%nat) (combine (seq k (length l)) l).
Proof.
  revert k. induction l as [|x l IH]; intros k; simpl; constructor; [|apply IH].
  apply List.Forall_forall. intros [i y] Hi. simpl.
  apply in_combine_l, in_seq in Hi. lia.
Qed.

(** On at most 20 rows (where [sort_by] is the insertion sort embedded
    above), [order_by] sorts stably with the lexicographic comparator of
    the keys; if the sort returns [out]:
    - [out] is a permutation of the input; tagging each row with its input
      position, a row placed ahead of a row that came earlier in the input
      compares [Less] than it, so rows that compare [Equal] on all keys
      keep their relative input order;
    - no row of [out] compares [Less] than the row before it;
    - the comparator is the specification's: for each key in order, compare
      the two values of its column with [compare_values], flipped for
      [Desc], and look at the next key only when they are equal. *)
Theorem order_by_stable_lexicographic rows schema exprs cost out cost' :
  (length rows <= 20)%nat ->
  order_by rows schema exprs cost = Ok (out, cost') ->
  (exists tagged,
     Permutation tagged (combine (seq 0 (length rows)) rows) /\
     map snd tagged = out /\
     ForallOrdPairs (fun a b => (fst b < fst a)%nat ->
                       order_compare schema exprs (snd a) (snd b) = Ok Lt) tagged /\
     (forall k1 k2 i j row_i row_j,
        tagged !! k1 = Some (i, row_i) -> tagged !! k2 = Some (j, row_j) ->
        (i < j)%nat -> order_compare schema exprs row_i row_j = Ok Eq -> (k1 < k2)%nat)) /\
  Sorted (fun prev next => order_compare schema exprs next prev <> Ok Lt) out /\
  (forall row_a row_b,
     order_compare schema exprs row_a row_b = spec_lex_compare schema exprs row_a row_b).
Proof.
  intros _ H. unfold order_by in H.
  split; [|split; [|exact (order_compare_spec schema exprs)]].
  - pose proof (map_snd_combine_seq 0 rows) as Hsnd.
    rewrite <- Hsnd in H.
    apply (sort_by_map snd (fun a b => order_compare schema exprs (snd a) (snd b))) in H;
      [|intros; reflexivity].
    destruct H as [tout [Hs ->]]. unfold sort_by in Hs.
    apply bind_Ok in Hs as [[r c1] [Hr Hs]]. simplify_eq.
    assert (Hfop : ForallOrdPairs (fun a b : nat * Row => (fst b < fst a)%nat ->
                     order_compare schema exprs (snd a) (snd b) = Ok Lt) (rev r)).
    { apply (ForallOrdPairs_rev (fun a b : nat * Row => (fst a < fst b)%nat ->
               order_compare schema exprs (snd b) (snd a) = Ok Lt)).
      apply (insertion_sort_rev_inversions _ fst _ _ _ _ _ Hr);
        [apply combine_seq_increasing | intros _ _ _ [] | constructor]. }
    exists (rev r). split; [|split; [reflexivity|split; [exact Hfop|]]].
    + rewrite <- Permutation_rev. rewrite (insertion_sort_rev_perm _ _ _ _ _ _ Hr).
      rewrite app_nil_r. symmetry. apply Permutation_rev.
    + intros k1 k2 i j row_i row_j H1 H2 Hij Heq.
      destruct (Nat.lt_total k1 k2) as [Hk|[<-|Hk]]; [exact Hk| |].
      * rewrite H1 in H2. simplify_eq. lia.
      * pose proof (ForallOrdPairs_lookup _ _ _ _ _ _ Hfop H2 H1 Hk Hij) as Hlt.
        simpl in Hlt. rewrite (order_compare_antisym _ _ _ _ _ Heq) in Hlt. discriminate.
  - unfold sort_by in H. apply bind_Ok in H as [[r c1] [Hr H]]. simplify_eq.
    apply (Sorted_rev (fun a b => order_compare schema exprs a b <> Ok Lt)).
    apply (insertion_sort_rev_sorted _ (order_compare_antisym schema exprs) _ _ _ _ _ Hr).
    constructor.
Qed.

Lemma order_by_stable_lexicographic_witness :
  order_by animal_table_rows animal_schema [mkOrderByExpr (col "species_id") Desc] 0
    = Ok ([mkRow [vint 3; VString "snake"; vint 2];
           mkRow [vint 1; VString "horse"; vint 1];
           mkRow [vint 2; VString "dog"; vint 1]], 3%nat) /\
  Sorted (fun prev next =>
            order_compare animal_schema [mkOrderByExpr (col "species_id") Desc] next prev
            <> Ok Lt)
    [mkRow [vint 3; VString "snake"; vint 2];
     mkRow [vint 1; VString "horse"; vint 1];
     mkRow [vint 2; VString "dog"; vint 1]].
Proof.
  split; [vm_compute; reflexivity|].
  refine (proj1 (proj2 (order_by_stable_lexicographic animal_table_rows animal_schema
            [mkOrderByExpr (col "species_id") Desc] 0 _ 3%nat _ _)));
    [simpl; lia | vm_compute; reflexivity].
Defined.

(** [compare_values] is not a total order on numbers: the u64 [2^63] is
    compared with an i64 as f64, and [2^63 - 2] and [2^63 - 1] both round
    to [2^63], so both compare [Equal] to it while comparing [Less] to each
    other.  Beyond 20 elements [slice::sort_by] leaves the order of such
    input unspecified. *)
Lemma compare_values_intransitive :
  compare_values (vint (2 ^ 63 - 2)) (VNumber (PosInt (2 ^ 63))) = Ok Eq /\
  compare_values (VNumber (PosInt (2 ^ 63))) (vint (2 ^ 63 - 1)) = Ok Eq /\
  compare_values (vint (2 ^ 63 - 2)) (vint (2 ^ 63 - 1)) = Ok Lt.
Proof. vm_compute. repeat split. Qed.

(* ------------------------------------------------------------------ *)
(** ** Further properties of the executor, planner and indexes *)

Lemma mapM_Forall2 {E A B} (f : A -> Outcome E B) (l : list A) (k : list B) :
  mapM f l = Ok k -> Forall2 (fun x y => f x = Ok y) l k.
Proof.
  revert k. induction l as [| x l IH]; intros k Hm; simpl in Hm; inv_ok; subst;
    constructor; [exact Ha | exact (IH _ Ha0)].
Qed.

Lemma Forall2_Forall_r {A B} (P : A -> B -> Prop) (Q : B -> Prop) l k :
  Forall2 P l k -> (forall x y, P x y -> Q y) -> Forall Q k.
Proof. induction 1; constructor; eauto. Qed.

Lemma into_row_items_length m cols : forall its,
  into_row_items m cols = Ok its -> length its = length cols.
Proof.
  revert m. induction cols as [| c rest IH]; intros m its H; simpl in H.
  - simplify_eq. reflexivity.
  - destruct (map_remove (name c) m) as [[item m'] |]; [| discriminate].
    inv_ok. subst. simpl. f_equal. exact (IH _ _ Ha).
Qed.

Lemma into_row_length v cols r : into_row v cols = Ok r -> length (items r) = length cols.
Proof.
  destruct v; simpl; intros H; try discriminate. inv_ok. subst. simpl.
  exact (into_row_items_length _ _ _ Ha).
Qed.

Lemma table_scan_fit static_rows table_name table_alias catalog step :
  table_scan static_rows table_name table_alias catalog = Ok step ->
  Forall (fun r => length (items r) = length (columns (qs_schema step))) (qs_rows step).
Proof.
  unfold table_scan. intros H. inv_ok. subst. simpl.
  apply (Forall2_Forall_r _ _ _ _ (mapM_Forall2 _ _ _ Ha1)).
  intros x y Hy. rewrite (into_row_length _ _ _ Hy), !length_map. reflexivity.
Qed.

Lemma index_scan_fit static_rows table_name table_alias index values catalog step :
  index_scan static_rows table_name table_alias index values catalog = Ok step ->
  Forall (fun r => length (items r) = length (columns (qs_schema step))) (qs_rows step).
Proof.
  unfold index_scan. intros H. inv_ok. subst. simpl.
  apply (Forall2_Forall_r _ _ _ _ (mapM_Forall2 _ _ _ Ha1)).
  intros x y Hy. rewrite (into_row_length _ _ _ Hy), !length_map. reflexivity.
Qed.

Lemma filter_rows_Forall (P : Row -> Prop) schema filter rows : forall cost out cost',
  filter_rows schema filter rows cost = Ok (out, cost') -> Forall P rows -> Forall P out.
Proof.
  induction rows as [| row rest IH]; intros cost out cost' Hf HP; simpl in Hf.
  - simplify_eq. constructor.
  - inv_ok. destruct a0 as [filtered_rows c]. simpl in Hf. simplify_eq.
    inversion HP as [| ? ? Hrow Hrest]; subst.
    pose proof (IH _ _ _ Ha0 Hrest) as Hout.
    destruct a; [constructor |]; assumption.
Qed.

Lemma project_fields_fit rows schema fields cost out cost' :
  project_fields rows schema fields cost = Ok (out, cost') ->
  Forall (fun r => length (items r) = length fields) out.
Proof.
  intros Hp. destruct (project_fields_cases rows schema fields cost out cost' Hp) as [Hall Hmixed].
  destruct (forallb is_aggregate_expr fields).
  - destruct (Hall eq_refl) as [vs [-> [_ Hvs]]]. repeat constructor. simpl.
    symmetry. exact (Forall2_length _ _ _ Hvs).
  - destruct (Hmixed eq_refl) as [_ [_ H2]].
    apply (Forall2_Forall_r _ _ _ _ H2). intros row r Hr. symmetry. exact (Forall2_length _ _ _ Hr).
Qed.

Lemma project_schema_length display_value schema fields s :
  project_schema display_value schema fields = Ok s -> length (columns s) = length fields.
Proof. unfold project_schema. intros H. inv_ok. subst. exact (mapM_length _ _ _ Ha). Qed.

Lemma hash_join_schema calculate_hash left_schema right_schema on join_type
    left_rows right_rows cost step :
  hash_join calculate_hash left_schema right_schema on join_type left_rows right_rows cost
    = Ok step -> qs_schema step = schema_extend left_schema right_schema.
Proof.
  unfold hash_join. intros H. apply bind_Ok in H as [[s1 c1] [_ H]].
  apply bind_Ok in H as [[s2 c2] [_ H]]. apply bind_Ok in H as [[o c3] [_ H]].
  simplify_eq. reflexivity.
Qed.

Lemma hash_join_fit calculate_hash left_schema right_schema on join_type
    left_rows right_rows cost step :
  hash_join calculate_hash left_schema right_schema on join_type left_rows right_rows cost
    = Ok step ->
  Forall (fun r => length (items r) = length (columns left_schema)) left_rows ->
  Forall (fun r => length (items r) = length (columns right_schema)) right_rows ->
  Forall (fun r => length (items r) = length (columns (qs_schema step))) (qs_rows step).
Proof.
  intros Hj HL HR. rewrite (hash_join_schema _ _ _ _ _ _ _ _ _ Hj). simpl.
  destruct (hash_join_spec _ _ _ _ _ _ _ _ _ Hj) as [chunks [-> Hchunks]].
  apply List.Forall_forall. intros x Hx. apply in_concat in Hx as [chunk [Hchunk Hx]].
  destruct (Forall2_In_r _ _ _ _ Hchunks Hchunk) as [lr [Hlr [v [bucket [_ [-> Hb]]]]]].
  pose proof (proj1 (List.Forall_forall _ _) HL lr Hlr) as Hlen. cbv beta in Hlen.
  rewrite length_app. unfold emit_for in Hx.
  destruct bucket as [| b bs].
  - destruct join_type; [destruct Hx |].
    destruct Hx as [<- | []]. simpl. rewrite length_app, length_map. lia.
  - apply in_map_iff in Hx as [item [<- Hitem]]. simpl. rewrite length_app.
    apply Hb in Hitem as [Hitem _].
    pose proof (proj1 (List.Forall_forall _ _) HR item Hitem) as Hi. cbv beta in Hi. lia.
Qed.

(** Every step the executor returns is well formed: each of its rows has
    exactly one item per column of its schema (scans take one item per
    declared column, a filter or limit keeps whole rows, a projection has
    one item per field, a join concatenates a left and a right row or pads
    the left row with one [null] per right column). *)
Theorem run_physical_plan_rows_fit calculate_hash display_value static_rows catalog
    (p : PhysicalPlan Expr) step :
  run_physical_plan calculate_hash display_value static_rows catalog p = Ok step ->
  Forall (fun r => length (items r) = length (columns (qs_schema step))) (qs_rows step).
Proof.
  revert step. induction p as [t a | t a index values | from IH filter | from IH fields
                              | from IH limit | join_type l IHl r IHr on];
    intros step H; simpl in H.
  - exact (table_scan_fit _ _ _ _ _ H).
  - exact (index_scan_fit _ _ _ _ _ _ _ H).
  - apply bind_Ok in H as [s [Hs H]]. apply bind_Ok in H as [[out c] [Hf H]].
    simplify_eq. simpl. exact (filter_rows_Forall _ _ _ _ _ _ _ Hf (IH _ Hs)).
  - apply bind_Ok in H as [s [Hs H]]. apply bind_Ok in H as [[out c] [Hp H]].
    apply bind_Ok in H as [sch [Hsch H]]. simplify_eq. simpl.
    rewrite (project_schema_length _ _ _ _ Hsch). exact (project_fields_fit _ _ _ _ _ _ Hp).
  - apply bind_Ok in H as [s [Hs H]]. simplify_eq. simpl.
    pose proof (IH _ Hs) as Hfit. rewrite <- (firstn_skipn limit (qs_rows s)) in Hfit.
    apply List.Forall_app in Hfit as [Hfit _]. exact Hfit.
  - apply bind_Ok in H as [sl [Hl H]]. apply bind_Ok in H as [sr [Hr H]].
    exact (hash_join_fit _ _ _ _ _ _ _ _ _ H (IHl _ Hl) (IHr _ Hr)).
Qed.

Lemma run_physical_plan_rows_fit_witness :
  Forall (fun r => length (items r) = 5%nat)
    [mkRow [vint 1; VString "mammal"; vint 1; VString "horse"; vint 1];
     mkRow [vint 1; VString "mammal"; vint 2; VString "dog"; vint 1];
     mkRow [vint 2; VString "reptile"; vint 3; VString "snake"; vint 2];
     mkRow [vint 3; VString "bird"; VNull; VNull; VNull]].
Proof.
  apply (run_physical_plan_rows_fit small_int_hash (fun _ => "") (fun _ => []) get_static_catalog
           (PJoin LeftOuter (TableScan "species" None) (TableScan "animal" None)
              (mkJoinOn (col "species_id") (col "species_id")))
           (mkQueryStep (schema_extend species_schema animal_schema)
              [mkRow [vint 1; VString "mammal"; vint 1; VString "horse"; vint 1];
               mkRow [vint 1; VString "mammal"; vint 2; VString "dog"; vint 1];
               mkRow [vint 2; VString "reptile"; vint 3; VString "snake"; vint 2];
               mkRow [vint 3; VString "bird"; VNull; VNull; VNull]] 15)).
  vm_compute. reflexivity.
Defined.

Lemma index_for_column_from_In i cols c :
  In (SColumn c) cols -> exists k, index_for_column_from i cols c = Some k /\ (k < i + length cols)%nat.
Proof.
  revert i. induction cols as [| sc rest IH]; intros i Hin; [destruct Hin |].
  destruct Hin as [-> | Hin]; simpl.
  - rewrite decide_True by reflexivity. exists i. split; [reflexivity | lia].
  - destruct sc as [c' | n].
    + destruct (decide (c' = c)); [exists i; split; [reflexivity | lia] |].
      destruct (IH (S i) Hin) as [k [Hk Hlt]]. exists k. split; [exact Hk | lia].
    + destruct (IH (S i) Hin) as [k [Hk Hlt]]. exists k. split; [exact Hk | lia].
Qed.

Lemma index_for_named_from_In i cols n :
  In (SNamed n) cols -> exists k, index_for_named_from i cols n = Some k /\ (k < i + length cols)%nat.
Proof.
  revert i. induction cols as [| sc rest IH]; intros i Hin; [destruct Hin |].
  destruct Hin as [-> | Hin]; simpl.
  - rewrite decide_True by reflexivity. exists i. split; [reflexivity | lia].
  - destruct sc as [c' | n'].
    + destruct (IH (S i) Hin) as [k [Hk Hlt]]. exists k. split; [exact Hk | lia].
    + destruct (decide (n' = n)); [exists i; split; [reflexivity | lia] |].
      destruct (IH (S i) Hin) as [k [Hk Hlt]]. exists k. split; [exact Hk | lia].
Qed.

Lemma json_map_insert_keys key value m k :
  In k (map fst (json_map_insert key value m)) <-> key = k \/ In k (map fst m).
Proof.
  induction m as [| [k' v'] rest IH]; simpl; [tauto |].
  destruct (String.compare key k') eqn:Hc; simpl.
  - apply String.compare_eq_iff in Hc. subst. tauto.
  - tauto.
  - rewrite IH. tauto.
Qed.

Lemma to_json_row_Ok schema row :
  (length (columns schema) <= length (items row))%nat ->
  forall cols m, (forall sc, In sc cols -> In sc (columns schema)) ->
  exists m', to_json_row schema row cols m = Ok m' /\
    forall k, In k (map fst m') <-> In k (map schema_column_display cols) \/ In k (map fst m).
Proof.
  intros Hlen cols. induction cols as [| sc rest IH]; intros m Hsub; simpl.
  - exists m. split; [reflexivity | tauto].
  - assert (Hv : exists v, match sc with
                           | SColumn column_name => unwrap (get_column row column_name schema)
                           | SNamed named => unwrap (get_named row named schema)
                           end = @Ok QueryError Value v).
    { specialize (Hsub sc (or_introl eq_refl)). destruct sc as [c | n].
      - destruct (index_for_column_from_In 0 _ c Hsub) as [k [Hk Hlt]].
        unfold get_column, get_index_for_column. rewrite Hk.
        destruct (lookup_lt_is_Some_2 (items row) k) as [v Hv]; [simpl in Hlt; lia |].
        rewrite Hv. eauto.
      - destruct (index_for_named_from_In 0 _ n Hsub) as [k [Hk Hlt]].
        unfold get_named, get_index_for_named. rewrite Hk.
        destruct (lookup_lt_is_Some_2 (items row) k) as [v Hv]; [simpl in Hlt; lia |].
        rewrite Hv. eauto. }
    destruct Hv as [v Hv]. rewrite Hv. simpl.
    destruct (IH (json_map_insert (schema_column_display sc) v m)) as [m' [Hm' Hkeys]].
    { intros sc' Hin. apply Hsub. right. exact Hin. }
    exists m'. split; [exact Hm' |]. intros k. rewrite Hkeys, json_map_insert_keys. tauto.
Qed.

(** [QueryStep::to_json] does not panic on a step whose rows have an item
    for every schema column: it returns an array of one object per row,
    whose keys are exactly the displayed names of the schema's columns (two
    columns displayed alike give one key). *)
Theorem to_json_objects step :
  Forall (fun r => (length (columns (qs_schema step)) <= length (items r))%nat) (qs_rows step) ->
  exists objs, to_json step = Ok (VArray objs) /\
    Forall2 (fun _ o => exists m, o = VObject m /\
               forall k, In k (map fst m) <->
                         In k (map schema_column_display (columns (qs_schema step))))
            (qs_rows step) objs.
Proof.
  intros Hfit. unfold to_json.
  assert (Hrows : exists objs,
            mapM (fun row =>
                    output_row ← to_json_row (qs_schema step) row (columns (qs_schema step)) [];
                    Ok (VObject output_row)) (qs_rows step) = Ok objs /\
            Forall2 (fun _ o => exists m, o = VObject m /\
               forall k, In k (map fst m) <->
                         In k (map schema_column_display (columns (qs_schema step))))
            (qs_rows step) objs).
  { induction Hfit as [| row rest Hrow Hrest IH]; simpl.
    - exists []. split; [reflexivity | constructor].
    - destruct (to_json_row_Ok (qs_schema step) row Hrow (columns (qs_schema step)) []
                  (fun sc H => H)) as [m [Hm Hkeys]].
      rewrite Hm. simpl. destruct IH as [objs [Hobjs Hall]]. rewrite Hobjs. simpl.
      exists (VObject m :: objs). split; [reflexivity |]. constructor; [| exact Hall].
      exists m. split; [reflexivity |]. intros k. rewrite Hkeys. simpl. tauto. }
  destruct Hrows as [objs [Hobjs Hall]]. rewrite Hobjs. simpl. exists objs. split; [reflexivity | exact Hall].
Qed.

Lemma to_json_objects_witness :
  exists objs, to_json (mkQueryStep animal_schema animal_table_rows 3) = Ok (VArray objs) /\
    Forall2 (fun _ o => exists m, o = VObject m /\
               forall k, In k (map fst m) <->
                         In k (map schema_column_display (columns animal_schema)))
            animal_table_rows objs.
Proof.
  apply (to_json_objects (mkQueryStep animal_schema animal_table_rows 3)).
  repeat constructor; simpl; lia.
Defined.

(** The [Filter] operator succeeds exactly when the predicate evaluates to
    a boolean on every child row; it then keeps, in order, the rows on
    which it is [true], and counts one processed row per child row. *)
Theorem filter_rows_keeps_true schema filter rows cost out cost' :
  filter_rows schema filter rows cost = Ok (out, cost') <->
  Forall (fun r => exists b, apply_predicate r schema filter = Ok b) rows /\
  out = List.filter (fun r => match apply_predicate r schema filter with
                              | Ok b => b
                              | _ => false
                              end) rows /\
  cost' = (cost + length rows)%nat.
Proof.
  revert cost out cost'. induction rows as [| row rest IH]; intros cost out cost'; simpl.
  - split.
    + intros H. simplify_eq. split; [constructor | split; [reflexivity | lia]].
    + intros [_ [-> ->]]. f_equal. f_equal. lia.
  - split.
    + intros H. inv_ok. destruct a0 as [filtered_rows c]. simpl in H. simplify_eq.
      apply IH in Ha0 as [Hall [-> ->]]. rewrite Ha.
      split; [constructor; [eauto | exact Hall] |]. split; [destruct a; reflexivity | lia].
    + intros [Hall [-> ->]]. inversion Hall as [| ? ? [b Hb] Hrest]; subst.
      rewrite Hb. simpl.
      assert (Hr : filter_rows schema filter rest (S cost)
                   = Ok (List.filter (fun r => match apply_predicate r schema filter with
                                               | Ok b => b
                                               | _ => false
                                               end) rest, (S cost + length rest)%nat))
        by (apply IH; split; [exact Hrest | split; reflexivity]).
      rewrite Hr. simpl. destruct b; simpl; repeat f_equal; lia.
Qed.

Lemma sum_rows_iff schema e rows : forall total t,
  i64_min <= total <= i64_max ->
  (sum_rows schema e total rows = Ok t <->
   exists ns,
     Forall2 (fun r n => exists num, evaluate_expr r schema e = Ok (VNumber num) /\
                                     as_i64 (VNumber num) = Some n) rows ns /\
     (forall k, i64_min <= total + fold_right Z.add 0 (firstn k ns) <= i64_max) /\
     t = total + fold_right Z.add 0 ns).
Proof.
  induction rows as [| r rest IH]; intros total t Htot; simpl.
  - split.
    + intros H. simplify_eq. exists []. split; [constructor |].
      split; [intros [|k]; simpl; lia | simpl; lia].
    + intros [ns [Hns [_ ->]]]. inversion Hns; subst. simpl. f_equal. lia.
  - split.
    + intros H. inv_ok. rename a into value.
      destruct value as [| | num | | |]; try discriminate.
      destruct (as_i64 (VNumber num)) as [n |] eqn:Hn; [| discriminate].
      apply bind_Ok in H as [t1 [Hadd H]]. unfold i64_add, i64_checked in Hadd.
      destruct ((i64_min <=? total + n) && (total + n <=? i64_max)) eqn:Hr; [| discriminate].
      simplify_eq. apply andb_prop in Hr as [Hr1 Hr2]. apply Z.leb_le in Hr1, Hr2.
      apply IH in H as [ns [Hns [Hrange ->]]]; [| lia].
      exists (n :: ns). split; [constructor; [eauto | exact Hns] |].
      split; [| simpl; lia].
      intros [| k]; simpl; [lia |]. specialize (Hrange k). lia.
    + intros [ns [Hns [Hrange ->]]]. inversion Hns as [| ? n ? ns' [num [Hv Hn]] Hrest]; subst.
      rewrite Hv. simpl. rewrite Hn. unfold i64_add, i64_checked.
      pose proof (Hrange 1%nat) as H1. simpl in H1.
      replace ((i64_min <=? total + n) && (total + n <=? i64_max)) with true
        by (symmetry; apply andb_true_intro; split; apply Z.leb_le; lia).
      simpl. replace (total + (n + fold_right Z.add 0 ns')) with
        ((total + n) + fold_right Z.add 0 ns') by lia.
      apply IH; [lia |]. exists ns'. split; [exact Hrest |]. split; [| reflexivity].
      intros k. specialize (Hrange (S k)). simpl in Hrange. lia.
Qed.

(** [sum(e, ...)] uses its first argument only.  It succeeds exactly when
    that argument evaluates, on every row, to a number that fits in an i64
    and every running total stays within the i64 range (an overflow
    panics); its value is then the sum of those numbers. *)
Theorem sum_aggregate_iff (e : Expr) (rest : list Expr) rows schema v :
  evaluate_function_call (Aggregate Sum) (e :: rest) rows schema = Ok v <->
  exists ns,
    Forall2 (fun r n => exists num, evaluate_expr r schema e = Ok (VNumber num) /\
                                    as_i64 (VNumber num) = Some n) rows ns /\
    (forall k, i64_min <= fold_right Z.add 0 (firstn k ns) <= i64_max) /\
    v = VNumber (number_of_i64 (fold_right Z.add 0 ns)).
Proof.
  unfold evaluate_function_call. simpl. split.
  - intros H. apply bind_Ok in H as [t [Ht H]]. simplify_eq.
    apply sum_rows_iff in Ht as [ns [Hns [Hrange ->]]]; [| unfold i64_min, i64_max; lia].
    exists ns. split; [exact Hns |]. split; [intros k; specialize (Hrange k); lia | reflexivity].
  - intros [ns [Hns [Hrange ->]]].
    assert (Ht : sum_rows schema e 0 rows = Ok (fold_right Z.add 0 ns)).
    { apply sum_rows_iff; [unfold i64_min, i64_max; lia |]. exists ns.
      split; [exact Hns |]. split; [intros k; specialize (Hrange k); lia | reflexivity]. }
    rewrite Ht. reflexivity.
Qed.

Lemma index_for_column_from_bound i cols c k :
  index_for_column_from i cols c = Some k -> (i <= k < i + length cols)%nat.
Proof.
  revert i. induction cols as [| sc rest IH]; intros i H; simpl in H; [discriminate |].
  destruct sc as [c' | n]; [destruct (decide (c' = c)) |];
    [simplify_eq; simpl; lia | |]; apply IH in H; simpl; lia.
Qed.

Lemma index_for_column_from_shift i cols c :
  index_for_column_from i cols c = Nat.add i <$> index_for_column_from 0 cols c.
Proof.
  revert i. induction cols as [| sc rest IH]; intros i; simpl; [reflexivity |].
  destruct sc as [c' | n]; [destruct (decide (c' = c)); [simpl; f_equal; lia |] |];
    rewrite (IH (S i)), (IH 1%nat); destruct (index_for_column_from 0 rest c); simpl;
    [f_equal; lia | reflexivity | f_equal; lia | reflexivity].
Qed.

Lemma index_for_column_from_app i c l1 l2 :
  index_for_column_from i (l1 ++ l2) c =
  match index_for_column_from i l1 c with
  | Some k => Some k
  | None => index_for_column_from (i + length l1) l2 c
  end.
Proof.
  revert i. induction l1 as [| sc rest IH]; intros i; simpl.
  - rewrite Nat.add_0_r. reflexivity.
  - destruct sc as [c' | n]; [destruct (decide (c' = c)); [reflexivity |] |];
      rewrite IH; replace (S i + length rest)%nat with (i + S (length rest))%nat by lia;
      reflexivity.
Qed.

(** After a join, a column is looked up in the left schema first: a column
    that both sides have (as [species_id] in [animal JOIN species ON
    species_id]) reads the left row's value; the others read the side they
    come from. *)
Theorem get_column_after_join (l r : Row) (ls rs : Schema) (c : Column) :
  length (items l) = length (columns ls) ->
  get_column (row_extend l r) c (schema_extend ls rs) =
  match get_index_for_column ls c with
  | Some _ => get_column l c ls
  | None => get_column r c rs
  end.
Proof.
  intros Hlen. unfold get_column, get_index_for_column, row_extend, schema_extend. simpl.
  rewrite index_for_column_from_app.
  destruct (index_for_column_from 0 (columns ls) c) as [k |] eqn:Hk.
  - apply index_for_column_from_bound in Hk. apply lookup_app_l. lia.
  - rewrite index_for_column_from_shift. simpl.
    destruct (index_for_column_from 0 (columns rs) c) as [k |]; simpl; [| reflexivity].
    rewrite lookup_app_r by lia. f_equal. lia.
Qed.

Lemma get_column_after_join_witness :
  get_column (row_extend (mkRow [vint 1; VString "mammal"])
                         (mkRow [vint 2; VString "dog"; vint 7]))
             (col "species_id") (schema_extend species_schema animal_schema)
  = Some (vint 1).
Proof.
  rewrite (get_column_after_join (mkRow [vint 1; VString "mammal"])
             (mkRow [vint 2; VString "dog"; vint 7]) species_schema animal_schema
             (col "species_id") ltac:(reflexivity)).
  vm_compute. reflexivity.
Defined.

Lemma index_for_column_from_lookup i cols c k :
  index_for_column_from i cols c = Some k -> cols !! (k - i)%nat = Some (SColumn c).
Proof.
  revert i. induction cols as [| sc rest IH]; intros i H; simpl in H; [discriminate |].
  destruct sc as [c' | n]; [destruct (decide (c' = c)) |].
  - simplify_eq. rewrite Nat.sub_diag. reflexivity.
  - pose proof (index_for_column_from_bound _ _ _ _ H) as Hb. apply IH in H.
    replace (k - i)%nat with (S (k - S i)) by lia. exact H.
  - pose proof (index_for_column_from_bound _ _ _ _ H) as Hb. apply IH in H.
    replace (k - i)%nat with (S (k - S i)) by lia. exact H.
Qed.

Lemma index_for_expr_column display_value schema c :
  index_for_expr display_value (EColumn c) schema =
  match get_index_for_column schema c with
  | Some _ => Ok (SColumn c)
  | None => Err (ColumnNotFoundInSchema c)
  end.
Proof.
  simpl. unfold get_index_for_column.
  destruct (index_for_column_from 0 (columns schema) c) as [k |] eqn:Hk; simpl; [| reflexivity].
  apply index_for_column_from_lookup in Hk. rewrite Nat.sub_0_r in Hk. rewrite Hk. reflexivity.
Qed.

(** Projecting plain columns: the schema of the projection lists the
    projected columns themselves, in the order given; if one of them is not
    in the schema, the first such column is reported as
    [ColumnNotFoundInSchema]. *)
Theorem project_schema_columns display_value schema (cs : list Column) :
  project_schema display_value schema (map EColumn cs) =
  match List.find (fun c => bool_decide (get_index_for_column schema c = None)) cs with
  | Some c => Err (ColumnNotFoundInSchema c)
  | None => Ok (mkSchema (map SColumn cs))
  end.
Proof.
  unfold project_schema. induction cs as [| c rest IH]; [reflexivity |].
  cbn [map List.find].
  change (mapM ?f (?x :: ?l)) with (y ← f x; k ← mapM f l; mret (y :: k)).
  cbv beta. rewrite (index_for_expr_column display_value schema c).
  destruct (get_index_for_column schema c) eqn:Hc; simpl.
  - destruct (mapM (fun field => index_for_expr display_value field schema) (map EColumn rest))
      as [cols | e | msg]; simpl in IH |- *;
      destruct (List.find (fun c => bool_decide (get_index_for_column schema c = None)) rest);
      congruence.
  - reflexivity.
Qed.

(** [index_for_expr] never reports [IndexNotFoundInSchema]: the index it
    looks up was found in the same schema. *)
Theorem index_for_expr_no_index_error display_value (field : Expr) schema (i : nat) :
  index_for_expr display_value field schema <> Err (IndexNotFoundInSchema i).
Proof.
  induction field as [c | lit | l _ op r _ | e IH | f args].
  - rewrite index_for_expr_column. destruct (get_index_for_column schema c); discriminate.
  - discriminate.
  - discriminate.
  - exact IH.
  - discriminate.
Qed.

Lemma columns_in_filter_mapM c op lit (cols : list string) :
  mapM (fun column => columns_in_filter (ColumnComparison c op lit) !! column) cols =
  if forallb (fun col => match op with Equals => bool_decide (col = name c) | _ => false end) cols
  then Some (replicate (length cols) lit) else None.
Proof.
  induction cols as [| col rest IH]; [reflexivity |].
  change (mapM ?f (?x :: ?l)) with (y ← f x; k ← mapM f l; mret (y :: k)).
  cbv beta. rewrite IH. cbn [forallb].
  destruct op; cbn [columns_in_filter]; try (rewrite lookup_empty; reflexivity).
  destruct (decide (col = name c)) as [-> | Hne].
  - rewrite bool_decide_eq_true_2 by reflexivity.
    rewrite lookup_singleton_eq. destruct (forallb _ rest); reflexivity.
  - rewrite lookup_singleton_ne by congruence. rewrite bool_decide_eq_false_2 by exact Hne.
    reflexivity.
Qed.

(** How the planner turns a filter directly over a table: it scans the first
    index of that table (in the order of [indexes]) whose columns are all
    bound by the filter, that is, all equal to the filter's column under an
    [Equals] comparison (for another operator only an index with no columns
    qualifies), looking up the value [[literal, ..., literal]]; with no such
    index it keeps the filter over a full table scan. *)
Theorem filter_plan_choice (indexes : ConstructedIndexes) table_name table_alias c op lit :
  to_physical_plan (LFilter (LFrom table_name table_alias) (ColumnComparison c op lit)) indexes =
  match indexes !! table_name ≫=
          List.find (fun ic => forallb (fun col => match op with
                                                    | Equals => bool_decide (col = name c)
                                                    | _ => false end)
                                       (index_columns (fst ic))) with
  | Some (index, _) =>
      IndexScan table_name table_alias index [VArray (replicate (length (index_columns index)) lit)]
  | None => PFilter (TableScan table_name table_alias) (ColumnComparison c op lit)
  end.
Proof.
  cbn [to_physical_plan]. unfold find_index.
  destruct (indexes !! table_name) as [l |]; [| reflexivity].
  change (Some l ≫= ?f) with (f l).
  induction l as [| [index ci] rest IH]; [reflexivity |].
  cbn [find_index_in List.find fst]. rewrite columns_in_filter_mapM.
  destruct (forallb _ (index_columns index)); [reflexivity | exact IH].
Qed.

Lemma object_get_None key m : object_get key m = None <-> key ∉ map fst m.
Proof.
  induction m as [| [k v] rest IH]; simpl.
  - split; [intros _ Hin; inversion Hin | reflexivity].
  - rewrite not_elem_of_cons. destruct (decide (k = key)) as [-> | Hne].
    + split; [discriminate | intros [Hn _]; congruence].
    + rewrite IH. split; [intros Hn; split; congruence | tauto].
Qed.

Lemma map_remove_None key m : map_remove key m = None <-> object_get key m = None.
Proof.
  induction m as [| [k v] rest IH]; simpl; [tauto |].
  destruct (decide (k = key)); [split; discriminate |].
  rewrite <- IH. destruct (map_remove key rest) as [[found rest'] |]; split; congruence.
Qed.

Lemma map_remove_keys key m v m' k :
  map_remove key m = Some (v, m') -> k ∈ map fst m' -> k ∈ map fst m.
Proof.
  revert m'. induction m as [| [k0 w] rest IH]; intros m' H Hin; simpl in H |- *; [discriminate |].
  destruct (decide (k0 = key)).
  - simplify_eq. apply elem_of_cons. right. exact Hin.
  - destruct (map_remove key rest) as [[found rest'] |]; [| discriminate].
    simplify_eq. simpl in Hin. apply elem_of_cons in Hin as [-> | Hin].
    + apply elem_of_cons. left. reflexivity.
    + apply elem_of_cons. right. exact (IH rest' eq_refl Hin).
Qed.

Lemma map_remove_Some key m v m' :
  map_remove key m = Some (v, m') ->
  object_get key m = Some v /\
  (forall k, k <> key -> object_get k m' = object_get k m) /\
  (NoDup (map fst m) -> NoDup (map fst m') /\ object_get key m' = None).
Proof.
  revert m'. induction m as [| [k w] rest IH]; intros m' H; simpl in H |- *; [discriminate |].
  destruct (decide (k = key)) as [-> | Hne].
  - simplify_eq. split; [reflexivity |]. split.
    + intros k Hk. destruct (decide (key = k)); [congruence | reflexivity].
    + intros Hnd. apply NoDup_cons in Hnd as [Hn Hnd]. split; [exact Hnd |].
      apply object_get_None. exact Hn.
  - destruct (map_remove key rest) as [[found rest'] |] eqn:Hr; [| discriminate].
    simplify_eq. destruct (IH rest' eq_refl) as (Hget & Hoth & Hnd').
    split; [exact Hget |]. split.
    + intros k' Hk'. simpl. destruct (decide (k = k')); [reflexivity | apply Hoth; exact Hk'].
    + intros Hnd. apply NoDup_cons in Hnd as [Hn Hnd]. destruct (Hnd' Hnd) as [Hnd'' Hnone].
      simpl. destruct (decide (k = key)); [congruence |]. split; [| exact Hnone].
      apply NoDup_cons. split; [| exact Hnd''].
      intros Hin. apply Hn. exact (map_remove_keys _ _ _ _ _ Hr Hin).
Qed.

Lemma Forall2_object_get_present m (cols : list Column) its :
  Forall2 (fun c v => object_get (name c) m = Some v) cols its ->
  forall n, n ∈ map name cols -> object_get n m <> None.
Proof.
  induction 1 as [| c v cols' its' Hcv _ IH]; intros n Hin; simpl in Hin.
  - inversion Hin.
  - apply elem_of_cons in Hin as [-> | Hin]; [congruence | exact (IH n Hin)].
Qed.

Lemma Forall2_object_get_transfer m m' key (cols : list Column) its :
  key ∉ map name cols ->
  (forall k, k <> key -> object_get k m' = object_get k m) ->
  Forall2 (fun c v => object_get (name c) m = Some v) cols its ->
  Forall2 (fun c v => object_get (name c) m' = Some v) cols its.
Proof.
  intros Hkey Hoth. induction 1 as [| c v cols' its' Hcv _ IH]; [constructor |].
  simpl in Hkey. apply not_elem_of_cons in Hkey as [Hne Hkey].
  constructor; [rewrite Hoth by congruence; exact Hcv | exact (IH Hkey)].
Qed.

Lemma into_row_items_spec m cols its :
  NoDup (map fst m) ->
  into_row_items m cols = Ok its <->
  NoDup (map name cols) /\ Forall2 (fun c v => object_get (name c) m = Some v) cols its.
Proof.
  revert m its. induction cols as [| c rest IH]; intros m its Hnd; simpl.
  - split.
    + intros H. simplify_eq. split; constructor.
    + intros [_ H]. inversion H. reflexivity.
  - destruct (map_remove (name c) m) as [[item m'] |] eqn:Hr.
    + destruct (map_remove_Some _ _ _ _ Hr) as (Hg & Hoth & Hnd').
      destruct (Hnd' Hnd) as [Hndm' Hnone]. split.
      * intros H. destruct (into_row_items m' rest) as [its' | e | msg] eqn:Hi;
          simpl in H; try discriminate. simplify_eq.
        apply (IH m' its' Hndm') in Hi as [Hndr Hf]. split.
        -- apply NoDup_cons. split; [| exact Hndr].
           intros Hin. exact (Forall2_object_get_present _ _ _ Hf _ Hin Hnone).
        -- constructor; [exact Hg |].
           apply (Forall2_object_get_transfer m' m (name c)); [| | exact Hf].
           ++ intros Hin. exact (Forall2_object_get_present _ _ _ Hf _ Hin Hnone).
           ++ intros k Hk. symmetry. apply Hoth. exact Hk.
      * intros [Hndc Hf]. apply NoDup_cons in Hndc as [Hn Hndr].
        inversion Hf as [| ? v ? its' Hv Hf']; subst.
        rewrite Hg in Hv. simplify_eq.
        assert (Hi : into_row_items m' rest = Ok its').
        { apply (IH m' its' Hndm'). split; [exact Hndr |].
          exact (Forall2_object_get_transfer m m' (name c) rest its' Hn Hoth Hf'). }
        rewrite Hi. reflexivity.
    + apply map_remove_None in Hr. split; [discriminate |].
      intros [_ Hf]. inversion Hf; congruence.
Qed.

Lemma into_row_items_not_Err m cols e : into_row_items m cols <> Err e.
Proof.
  revert m. induction cols as [| c rest IH]; intros m; simpl; [discriminate |].
  destruct (map_remove (name c) m) as [[item m'] |]; [| discriminate].
  specialize (IH m'). destruct (into_row_items m' rest); simpl; congruence.
Qed.

(** Converting a JSON object with distinct keys into a row never yields an
    error value: it succeeds exactly when the requested column names are
    distinct and all present as keys, and then the row holds, in column
    order, the value stored under each column name; otherwise it panics. *)
Theorem into_row_object m cols r :
  NoDup (map fst m) ->
  (forall e, into_row (VObject m) cols <> Err e) /\
  (into_row (VObject m) cols = Ok r <->
   NoDup (map name cols) /\ Forall2 (fun c v => object_get (name c) m = Some v) cols (items r)).
Proof.
  intros Hnd. split.
  - intros e. simpl. pose proof (into_row_items_not_Err m cols e).
    destruct (into_row_items m cols); simpl; congruence.
  - simpl. rewrite <- (into_row_items_spec m cols (items r) Hnd).
    destruct (into_row_items m cols) as [its | e | msg]; simpl; [| split; discriminate ..].
    destruct r as [its']. simpl. split; congruence.
Qed.

Lemma into_row_object_witness :
  into_row (VObject [("id", vint 1); ("name", VString "x")]) [col "name"; col "id"]
  = Ok (mkRow [VString "x"; vint 1]).
Proof.
  apply (proj2 (into_row_object [("id", vint 1); ("name", VString "x")] [col "name"; col "id"]
                  (mkRow [VString "x"; vint 1]) ltac:(simpl; repeat constructor; set_solver))).
  split; [simpl; repeat constructor; set_solver | repeat constructor].
Defined.

Lemma construct_index_from_lookup calculate_hash index i rows its h :
  construct_index_from calculate_hash index i rows its !! h =
  let new := map fst (List.filter
               (fun jr => bool_decide (calculate_hash (VArray (map (fun column =>
                            match value_get (snd jr) column with
                            | Some value => value
                            | None => VNull
                            end) (index_columns index))) = h))
               (combine (seq i (length rows)) rows)) in
  match its !! h with
  | Some line_numbers => Some (line_numbers ++ new)
  | None => match new with [] => None | _ => Some new end
  end.
Proof.
  revert i its. induction rows as [| row rest IH]; intros i its; cbn zeta.
  - simpl. destruct (its !! h); [rewrite app_nil_r |]; reflexivity.
  - cbn [construct_index_from]. rewrite IH. cbn zeta.
    cbn [length seq combine List.filter snd].
    set (hr := calculate_hash (VArray _)).
    destruct (decide (hr = h)) as [<- | Hne].
    + rewrite bool_decide_eq_true_2 by reflexivity. cbn [map fst].
      destruct (its !! hr) as [b |] eqn:Hb.
      * rewrite lookup_insert_eq, <- app_assoc. reflexivity.
      * rewrite lookup_insert_eq. reflexivity.
    + rewrite bool_decide_eq_false_2 by exact Hne.
      destruct (its !! hr); rewrite lookup_insert_ne by exact Hne; reflexivity.
Qed.

(** The buckets of a constructed index: the bucket of hash [h] lists, in
    increasing order, exactly the positions of the rows whose index key (the
    values of the index's columns, [null] for a missing one) hashes to [h];
    a hash no row has gets no bucket, never an empty one. *)
Theorem construct_index_buckets calculate_hash index rows h :
  construct_index calculate_hash index rows !! h =
  let bucket := map fst (List.filter
                  (fun jr => bool_decide (calculate_hash (VArray (map (fun column =>
                               match value_get (snd jr) column with
                               | Some value => value
                               | None => VNull
                               end) (index_columns index))) = h))
                  (combine (seq 0 (length rows)) rows)) in
  match bucket with [] => None | _ => Some bucket end.
Proof.
  unfold construct_index. rewrite construct_index_from_lookup, lookup_empty. reflexivity.
Qed.

Lemma Forall2_elem_of_l {A B} (P : A -> B -> Prop) l k x :
  Forall2 P l k -> x ∈ l -> exists y, y ∈ k /\ P x y.
Proof.
  induction 1 as [| a b l' k' Hab _ IH]; intros Hin; [inversion Hin |].
  apply elem_of_cons in Hin as [-> | Hin].
  - exists b. split; [apply elem_of_cons; left; reflexivity | exact Hab].
  - destruct (IH Hin) as [y [Hy Hp]]. exists y. split; [apply elem_of_cons; right; exact Hy | exact Hp].
Qed.

Lemma construct_table_indexes_Ok calculate_hash static_rows table l :
  construct_table_indexes calculate_hash static_rows table = Ok l ->
  Forall2 (fun index ic => fst ic = index /\
             exists rows, raw_rows_for_table static_rows (index_table_name index) = Ok rows /\
                          snd ic = construct_index calculate_hash index rows)
          (table_indexes table) l.
Proof.
  intros H. apply mapM_Forall2 in H.
  eapply Forall2_impl; [exact H |]. intros index ic Hic. cbv beta in Hic. inv_ok. subst. simpl.
  split; [reflexivity | eauto].
Qed.

(** Constructing the indexes of a catalog, when it succeeds, gives an entry
    for exactly the catalog's tables; the entry of a table pairs each of the
    table's indexes, in declaration order, with the index built over the
    rows of the table the index names. *)
Theorem construct_indexes_entries calculate_hash static_rows catalog indexes :
  construct_indexes calculate_hash static_rows catalog = Ok indexes ->
  forall table_name,
    match catalog !! table_name, indexes !! table_name with
    | Some table, Some l =>
        Forall2 (fun index ic => fst ic = index /\
                   exists rows, raw_rows_for_table static_rows (index_table_name index) = Ok rows /\
                                snd ic = construct_index calculate_hash index rows)
                (table_indexes table) l
    | None, None => True
    | _, _ => False
    end.
Proof.
  unfold construct_indexes. intros H table_name.
  apply bind_Ok in H as [kvs [Hkvs H]]. simplify_eq.
  apply mapM_Forall2 in Hkvs.
  assert (Hkeys : kvs.*1 = (map_to_list catalog).*1).
  { clear table_name. induction Hkvs as [| [tn table] kv l k Hkv _ IH]; [reflexivity |].
    simpl in Hkv. inv_ok. subst. simpl. f_equal. exact IH. }
  assert (Hnd : NoDup (kvs.*1)) by (rewrite Hkeys; apply NoDup_fst_map_to_list).
  destruct (catalog !! table_name) as [table |] eqn:Ht.
  - apply elem_of_map_to_list in Ht.
    destruct (Forall2_elem_of_l _ _ _ _ Hkvs Ht) as [kv [Hin Hkv]].
    simpl in Hkv. inv_ok. subst.
    apply (elem_of_list_to_map (M := gmap string)) in Hin; [| exact Hnd].
    rewrite Hin. exact (construct_table_indexes_Ok _ _ _ _ Ha).
  - assert (Hn : table_name ∉ kvs.*1).
    { rewrite Hkeys. intros Hin. apply list_elem_of_fmap in Hin as [[tn table] [Heq Hin]].
      simpl in Heq. subst. apply elem_of_map_to_list in Hin. congruence. }
    apply (not_elem_of_list_to_map (M := gmap string)) in Hn. rewrite Hn. exact I.
Qed.

Lemma construct_indexes_entries_witness :
  exists indexes,
    construct_indexes small_int_hash (fun _ => []) get_static_catalog = Ok indexes /\
    match get_static_catalog !! "animal", indexes !! "animal" with
    | Some table, Some l =>
        Forall2 (fun index ic => fst ic = index /\
                   exists rows, raw_rows_for_table (fun _ => []) (index_table_name index) = Ok rows /\
                                snd ic = construct_index small_int_hash index rows)
                (table_indexes table) l
    | None, None => True
    | _, _ => False
    end.
Proof.
  exists (match construct_indexes small_int_hash (fun _ => []) get_static_catalog with
          | Ok indexes => indexes
          | _ => ∅
          end).
  assert (H : construct_indexes small_int_hash (fun _ => []) get_static_catalog =
              Ok (match construct_indexes small_int_hash (fun _ => []) get_static_catalog with
                  | Ok indexes => indexes
                  | _ => ∅
                  end)) by (vm_compute; reflexivity).
  split; [exact H | exact (construct_indexes_entries _ _ _ _ H "animal")].
Defined.

Lemma join_build_outcome calculate_hash left_schema on left_rows : forall stuff cost,
  match join_build calculate_hash left_schema on left_rows stuff cost with
  | Ok _ => Forall (fun lr => is_Some (get_column lr (on_left on) left_schema)) left_rows
  | Err e => Exists (fun lr => get_column lr (on_left on) left_schema = None) left_rows /\
             e = ColumnNotFoundInSchema (on_left on)
  | Panicked _ => False
  end.
Proof.
  induction left_rows as [| lr rest IH]; intros stuff cost; simpl; [constructor |].
  unfold left_key, ok_or. destruct (get_column lr (on_left on) left_schema) as [v |] eqn:Hv; simpl.
  - specialize (IH (<[calculate_hash v := []]> stuff) (S cost)).
    destruct (join_build calculate_hash left_schema on rest _ _) as [r | e | msg].
    + constructor; [eauto | exact IH].
    + destruct IH as [Hex He]. split; [right; exact Hex | exact He].
    + exact IH.
  - split; [left; exact Hv | reflexivity].
Qed.

Lemma join_probe_outcome calculate_hash right_schema on right_rows : forall stuff cost,
  match join_probe calculate_hash right_schema on right_rows stuff cost with
  | Ok _ => Forall (fun rr => is_Some (get_column rr (on_right on) right_schema)) right_rows
  | Err e => Exists (fun rr => get_column rr (on_right on) right_schema = None) right_rows /\
             e = ColumnNotFoundInSchema (on_right on)
  | Panicked _ => False
  end.
Proof.
  induction right_rows as [| rr rest IH]; intros stuff cost; simpl; [constructor |].
  unfold right_key, ok_or. destruct (get_column rr (on_right on) right_schema) as [v |] eqn:Hv; simpl.
  - match goal with |- match join_probe _ _ _ rest ?s ?c with _ => _ end => specialize (IH s c) end.
    destruct (join_probe calculate_hash right_schema on rest _ _) as [r | e | msg].
    + constructor; [eauto | exact IH].
    + destruct IH as [Hex He]. split; [right; exact Hex | exact He].
    + exact IH.
  - split; [left; exact Hv | reflexivity].
Qed.

Lemma join_emit_total calculate_hash left_schema right_schema on join_type left_rows :
  Forall (fun lr => is_Some (get_column lr (on_left on) left_schema)) left_rows ->
  forall stuff cost, exists r,
    join_emit calculate_hash left_schema right_schema on join_type left_rows stuff cost = Ok r.
Proof.
  induction 1 as [| lr rest [v Hv] _ IH]; intros stuff cost; simpl; [eauto |].
  unfold left_key, ok_or. rewrite Hv. simpl.
  destruct (IH stuff (S cost)) as [[out c] Hr]. rewrite Hr. simpl. eauto.
Qed.

(** A join fails only for a missing join column, and then with an error,
    never a panic: if some left row lacks the left join column the error
    names that column; otherwise, if some right row lacks the right join
    column, the error names that one; when every row has its join column the
    join succeeds. *)
Theorem hash_join_missing_key calculate_hash left_schema right_schema on join_type
    left_rows right_rows cost :
  match hash_join calculate_hash left_schema right_schema on join_type left_rows right_rows cost with
  | Ok _ =>
      Forall (fun lr => is_Some (get_column lr (on_left on) left_schema)) left_rows /\
      Forall (fun rr => is_Some (get_column rr (on_right on) right_schema)) right_rows
  | Err e =>
      (Exists (fun lr => get_column lr (on_left on) left_schema = None) left_rows /\
       e = ColumnNotFoundInSchema (on_left on)) \/
      (Forall (fun lr => is_Some (get_column lr (on_left on) left_schema)) left_rows /\
       Exists (fun rr => get_column rr (on_right on) right_schema = None) right_rows /\
       e = ColumnNotFoundInSchema (on_right on))
  | Panicked _ => False
  end.
Proof.
  unfold hash_join.
  pose proof (join_build_outcome calculate_hash left_schema on left_rows ∅ cost) as Hb.
  destruct (join_build calculate_hash left_schema on left_rows ∅ cost) as [[stuff c] | e | msg];
    simpl; [| left; exact Hb | exact Hb].
  pose proof (join_probe_outcome calculate_hash right_schema on right_rows stuff c) as Hp.
  destruct (join_probe calculate_hash right_schema on right_rows stuff c) as [[stuff' c'] | e | msg];
    simpl; [| right; destruct Hp as [Hp He]; split; [exact Hb | split; [exact Hp | exact He]]
            | exact Hp].
  destruct (join_emit_total calculate_hash left_schema right_schema on join_type left_rows Hb
              stuff' c') as [[out c''] Hr].
  rewrite Hr. simpl. split; [exact Hb | exact Hp].
Qed.

(** A join emits one chunk of rows per left row, in left order.  Every row
    of a left row's chunk starts with that left row's items, and in a left
    outer join every chunk has at least one row. *)
Theorem hash_join_left_rows calculate_hash left_schema right_schema on join_type
    left_rows right_rows cost step :
  hash_join calculate_hash left_schema right_schema on join_type left_rows right_rows cost = Ok step ->
  exists chunks, qs_rows step = concat chunks /\
    Forall2 (fun lr chunk =>
               Forall (fun r => exists rest, items r = items lr ++ rest) chunk /\
               (join_type = LeftOuter -> chunk <> []))
            left_rows chunks.
Proof.
  intros Hj.
  destruct (hash_join_buckets calculate_hash left_schema right_schema on join_type _ _ _ _ Hj)
    as [chunks [Hrows Hchunks]].
  exists chunks. split; [exact Hrows |].
  eapply Forall2_impl; [exact Hchunks |].
  intros lr chunk (v & _ & ->). unfold emit_for.
  destruct (List.filter _ right_rows) as [| r rs].
  - destruct join_type; split.
    + constructor.
    + discriminate.
    + constructor; [| constructor]. eexists. reflexivity.
    + intros _. discriminate.
  - split; [| intros _; discriminate].
    apply List.Forall_forall. intros row Hrow. apply in_map_iff in Hrow as [item [<- _]].
    exists (items item). reflexivity.
Qed.

Lemma hash_join_left_rows_witness :
  exists chunks,
    qs_rows (mkQueryStep (schema_extend species_schema animal_schema)
               [mkRow [vint 1; VString "mammal"; vint 1; VString "horse"; vint 1];
                mkRow [vint 1; VString "mammal"; vint 2; VString "dog"; vint 1];
                mkRow [vint 2; VString "reptile"; vint 3; VString "snake"; vint 2];
                mkRow [vint 3; VString "bird"; VNull; VNull; VNull]] 9) = concat chunks /\
    Forall2 (fun lr chunk =>
               Forall (fun r => exists rest, items r = items lr ++ rest) chunk /\
               (LeftOuter = LeftOuter -> chunk <> []))
            species_table_rows chunks.
Proof.
  apply (hash_join_left_rows calculate_hash species_schema animal_schema
           (mkJoinOn (col "species_id") (col "species_id")) LeftOuter
           species_table_rows animal_table_rows 0).
  vm_compute. reflexivity.
Defined.

Lemma insert_tail_cost {A} (compare : A -> A -> Outcome QueryError comparison) x prefix_rev :
  forall cost r cost',
  insert_tail compare x prefix_rev cost = Ok (r, cost') ->
  length r = S (length prefix_rev) /\
  (cost <= cost')%nat /\
  (prefix_rev <> [] -> (S cost <= cost')%nat) /\
  (cost' <= cost + length prefix_rev)%nat.
Proof.
  induction prefix_rev as [| y ys IH]; intros cost r cost' H; simpl in H.
  - simplify_eq. simpl. repeat split; [lia | congruence | lia].
  - apply bind_Ok in H as [c [Hc H]]. destruct c.
    1, 3: simplify_eq; simpl; repeat split; lia.
    apply bind_Ok in H as [[r' c2] [Hr H]]. simplify_eq.
    destruct (IH _ _ _ Hr) as (Hlen & Hge & _ & Hle). simpl.
    repeat split; lia.
Qed.

Lemma insertion_sort_rev_cost {A} (compare : A -> A -> Outcome QueryError comparison) rows :
  forall prefix_rev cost r cost',
  insertion_sort_rev compare rows prefix_rev cost = Ok (r, cost') ->
  ((match prefix_rev with [] => pred (length rows) | _ => length rows end) + cost <= cost')%nat /\
  (2 * cost' + length rows <=
     2 * cost + length rows * length rows + 2 * length rows * length prefix_rev)%nat.
Proof.
  induction rows as [| row rest IH]; intros prefix_rev cost r cost' H; simpl in H.
  - injection H as Hr Hc. subst r cost'. destruct prefix_rev; simpl; lia.
  - apply bind_Ok in H as [[p1 c1] [Hi H]].
    destruct (insert_tail_cost compare row prefix_rev _ _ _ Hi) as (Hlen & Hge & Hne & Hle).
    destruct (IH _ _ _ _ H) as [Hlo Hup].
    destruct p1 as [| z zs]; [discriminate |].
    rewrite Hlen in Hup. simpl length in *.
    split.
    + destruct prefix_rev as [| y ys]; [lia |].
      assert (S cost <= c1)%nat by (apply Hne; discriminate). lia.
    + nia.
Qed.

(** The cost of sorting [n] rows (at most 20, where [sort_by] is an
    insertion sort) grows by one per comparator call: at least [n - 1]
    and at most [n * (n - 1) / 2]. *)
Theorem order_by_cost_bounds rows schema exprs cost out cost' :
  (length rows <= 20)%nat ->
  order_by rows schema exprs cost = Ok (out, cost') ->
  (cost + pred (length rows) <= cost')%nat /\
  (2 * cost' + length rows <= 2 * cost + length rows * length rows)%nat.
Proof.
  intros _ H. unfold order_by, sort_by in H.
  apply bind_Ok in H as [[r c] [Hi H]]. simplify_eq.
  destruct (insertion_sort_rev_cost _ _ _ _ _ _ Hi) as [Hlo Hup].
  simpl length in Hup. split; lia.
Qed.

Lemma order_by_cost_bounds_witness :
  (length animal_table_rows <= 20)%nat /\
  order_by animal_table_rows animal_schema [mkOrderByExpr (col "animal_name") Asc] 0
    = Ok ([nth 1 animal_table_rows (mkRow []); nth 0 animal_table_rows (mkRow []);
           nth 2 animal_table_rows (mkRow [])], 2%nat) /\
  (0 + pred (length animal_table_rows) <= 2)%nat /\
  (2 * 2 + length animal_table_rows <= 2 * 0 + length animal_table_rows * length animal_table_rows)%nat.
Proof.
  assert (Hlen : (length animal_table_rows <= 20)%nat) by (simpl; lia).
  assert (H : order_by animal_table_rows animal_schema [mkOrderByExpr (col "animal_name") Asc] 0
    = Ok ([nth 1 animal_table_rows (mkRow []); nth 0 animal_table_rows (mkRow []);
           nth 2 animal_table_rows (mkRow [])], 2%nat)) by (vm_compute; reflexivity).
  split; [exact Hlen |]. split; [exact H |].
  exact (order_by_cost_bounds _ _ _ _ _ _ Hlen H).
Defined.

(** Ordering by a column the schema does not have: [order_by] returns up
    to one row unchanged, without calling the comparator, and panics on the
    [unwrap] of the missing column as soon as it has two rows to compare. *)
Theorem order_by_missing_column rows schema e rest cost :
  get_index_for_column schema (ob_column e) = None ->
  order_by rows schema (e :: rest) cost =
  match rows with
  | [] | [_] => Ok (rows, cost)
  | _ => Panicked "called `Option::unwrap()` on a `None` value"
  end.
Proof.
  intros H. destruct rows as [| r0 [| r1 more]]; [reflexivity | reflexivity |].
  unfold order_by, sort_by, order_compare. cbn -[get_column].
  unfold get_column. rewrite H. reflexivity.
Qed.

Lemma order_by_missing_column_witness :
  get_index_for_column animal_schema (col "weight") = None /\
  order_by animal_table_rows animal_schema [mkOrderByExpr (col "weight") Desc] 0 =
    Panicked "called `Option::unwrap()` on a `None` value".
Proof.
  assert (H : get_index_for_column animal_schema (col "weight") = None) by (vm_compute; reflexivity).
  split; [exact H |].
  rewrite (order_by_missing_column animal_table_rows animal_schema
             (mkOrderByExpr (col "weight") Desc) [] 0 H).
  reflexivity.
Defined.

(** [compare_values] returns an ordering exactly for two nulls, two
    booleans, two numbers or two strings, and panics on any other pair
    (arrays, objects, or values of different kinds); it never returns an
    error value. An ordering it returns is reversed when the arguments are
    swapped, and a value compared with itself is [Equal]. *)
Theorem compare_values_domain a b :
  match compare_values a b with
  | Ok o =>
      match a, b with
      | VNull, VNull | VBool _, VBool _ | VNumber _, VNumber _ | VString _, VString _ => True
      | _, _ => False
      end /\
      compare_values b a = Ok (CompOpp o) /\
      (a = b -> o = Eq)
  | Err _ => False
  | Panicked _ =>
      match a, b with
      | VNull, VNull | VBool _, VBool _ | VNumber _, VNumber _ | VString _, VString _ => False
      | _, _ => True
      end
  end.
Proof.
  destruct (compare_values a b) as [o | e | msg] eqn:H.
  - split; [| split; [exact (compare_values_antisym _ _ _ H) |]].
    + destruct a, b; try exact I; discriminate.
    + intros <-. destruct a; cbn -[as_i64 number_as_f64] in H; try discriminate; simplify_eq.
      * reflexivity.
      * destruct b; reflexivity.
      * destruct (as_i64 (VNumber n)); [simplify_eq; apply Z.compare_refl |].
        destruct (number_as_f64 n); simplify_eq; [apply Z.compare_refl | reflexivity].
      * pose proof (String.compare_antisym s s) as Hs. destruct (String.compare s s); simpl in Hs; congruence.
  - destruct a, b; cbn -[as_i64 number_as_f64] in H; try discriminate;
      repeat (case_match; try discriminate).
  - destruct a, b; cbn -[as_i64 number_as_f64] in H; try discriminate; try exact I;
      repeat (case_match; try discriminate).
Qed.

(** Two nested limits act as one limit by the smaller bound: same schema,
    same rows, same cost (truncating costs nothing). *)
Theorem run_limit_limit calculate_hash display_value static_rows catalog
    (p : PhysicalPlan Expr) (a b : nat) :
  run_physical_plan calculate_hash display_value static_rows catalog (PLimit (PLimit p a) b) =
  run_physical_plan calculate_hash display_value static_rows catalog (PLimit p (Nat.min a b)).
Proof.
  simpl. destruct (run_physical_plan calculate_hash display_value static_rows catalog p)
    as [step | e | msg]; simpl; [| reflexivity | reflexivity].
  rewrite firstn_firstn, Nat.min_comm. reflexivity.
Qed.

Lemma mapM_Ok_map {E A B} (f : A -> Outcome E B) (g : A -> B) l :
  Forall (fun x => f x = Ok (g x)) l -> mapM f l = Ok (map g l).
Proof.
  induction 1 as [| x l' Hx _ IH]; [reflexivity |].
  change (mapM f (x :: l')) with (y ← f x; k ← mapM f l'; mret (y :: k)).
  rewrite Hx, IH. reflexivity.
Qed.

Lemma into_row_declared m (names : list string) table_alias :
  NoDup (map fst m) -> NoDup names -> Forall (fun nm => nm ∈ map fst m) names ->
  into_row (VObject m) (map (fun nm => mkColumn nm table_alias) names) =
  Ok (mkRow (map (fun nm => match object_get nm m with Some v => v | None => VNull end) names)).
Proof.
  intros Hm Hn Hin.
  apply (proj2 (proj2 (into_row_object m _ _ Hm))). simpl. split.
  - rewrite map_map. simpl. rewrite map_id. exact Hn.
  - clear Hn. induction Hin as [| nm rest Hnm _ IH]; simpl; constructor; [| exact IH].
    cbn [name]. destruct (object_get nm m) eqn:Hg; [reflexivity |].
    apply object_get_None in Hg. contradiction.
Qed.

(** Scanning a table whose stored rows are JSON objects with distinct keys
    that include every declared column (declared without repetition): the
    schema lists the declared columns, qualified by the alias, and each
    stored row, in storage order, becomes the row of its values for the
    declared columns in declaration order; the cost is the number of rows. *)
Theorem table_scan_declared static_rows table_name table_alias catalog table raw :
  catalog !! table_name = Some table ->
  raw_rows_for_table static_rows table_name = Ok raw ->
  NoDup (table_columns table) ->
  Forall (fun v => exists m, v = VObject m /\ NoDup (map fst m) /\
                             Forall (fun nm => nm ∈ map fst m) (table_columns table)) raw ->
  table_scan static_rows table_name table_alias catalog =
  Ok (mkQueryStep
        (mkSchema (map (fun nm => SColumn (mkColumn nm table_alias)) (table_columns table)))
        (map (fun v => mkRow (map (fun nm => match value_get v nm with
                                              | Some x => x
                                              | None => VNull
                                              end) (table_columns table))) raw)
        (length raw)).
Proof.
  intros Ht Hraw Hnd Hrows. unfold table_scan, from_schema. rewrite Ht. simpl.
  rewrite Hraw. simpl.
  rewrite (mapM_Ok_map _ (fun v => mkRow (map (fun nm => match value_get v nm with
                                                          | Some x => x
                                                          | None => VNull
                                                          end) (table_columns table))) raw).
  - simpl. rewrite map_map. reflexivity.
  - eapply List.Forall_impl; [| exact Hrows]. intros v (m & -> & Hm & Hin).
    exact (into_row_declared m _ table_alias Hm Hnd Hin).
Qed.

Lemma table_scan_declared_witness :
  table_scan (fun _ => []) "animal" (Some "a") get_static_catalog =
  Ok (mkQueryStep
        (mkSchema (map (fun nm => SColumn (mkColumn nm (Some "a"))) (table_columns animal_table)))
        (map (fun v => mkRow (map (fun nm => match value_get v nm with
                                              | Some x => x
                                              | None => VNull
                                              end) (table_columns animal_table))) animal_rows)
        (length animal_rows)).
Proof.
  apply (table_scan_declared (fun _ => []) "animal" (Some "a") get_static_catalog animal_table
           animal_rows).
  - vm_compute. reflexivity.
  - vm_compute. reflexivity.
  - simpl. repeat constructor; set_solver.
  - unfold animal_rows. simpl.
    repeat (apply List.Forall_cons; [eexists; split; [reflexivity |];
                                     split; simpl; repeat constructor; set_solver |]).
    apply List.Forall_nil.
Defined.
